(** * Pod selection of chaos-mesh: [pkg/utils/selector.go]

    A shallow embedding of the selection pipeline ([SelectPods]), the
    single-pod membership test ([CheckPodMeetSelector]), the requirement
    filters, the sampler ([filterPodsByMode]) and the fixed-index sampler
    ([RandomFixedIndexes]), followed by the properties of the design
    document that concern them.

    Conventions.
    - Go maps are [gmap]s; a [nil] map and an empty map are both [∅] (the
      code only takes [len] of them and looks keys up).
    - Go's [uint] and [int] are the 64-bit types of the amd64 and arm64
      targets: a value is a [Z] and each conversion and each operation that
      can wrap has its reduction written out ([Go.to_uint], [Go.to_int]).
    - [math/rand]'s shared source is an explicit stream of raw draws that is
      threaded through the sampler, and the rejection loop of
      [RandomFixedIndexes] takes fuel.
    - A panic of the Go runtime is the outcome [Panic].
    - What the file calls and does not define is a parameter: the cluster
      client, [regexp.MatchString], [labels.Parse], the [String] method of
      [label.Label], the controller configuration and the mock points. *)

From Stdlib Require Import ZArith Lia Ascii String List.
From stdpp Require Import base gmap strings list fin_maps.

Open Scope Z_scope.

(** ** Machine integers *)

Module Go.

Definition word : Z := 2 ^ 64.
Definition MaxInt : Z := 2 ^ 63 - 1.

(** [uint(x)]: reduction modulo [2^64]. *)
Definition to_uint (x : Z) : Z := x mod word.

(** [int(x)]: two's complement reading of the low 64 bits. *)
Definition to_int (x : Z) : Z := (x + 2 ^ 63) mod word - 2 ^ 63.

Definition is_uint (x : Z) : Prop := 0 <= x < word.

(** [x + y] and [x - y] at type [uint]. *)
Definition uadd (x y : Z) : Z := to_uint (x + y).
Definition usub (x y : Z) : Z := to_uint (x - y).

(** [len(s)] of a slice, an [int]. *)
Definition len {A} (s : list A) : Z := Z.of_nat (length s).

End Go.

(** ** Outcomes of a call *)

(** A call either returns, panics, or (for the model of the rejection loop)
    is cut off after the given number of iterations. *)
Inductive outcome (A : Type) : Type :=
| Done (a : A)
| Panic
| OutOfFuel.
Arguments Done {A} a.
Arguments Panic {A}.
Arguments OutOfFuel {A}.

Definition bind {A B} (o : outcome A) (k : A -> outcome B) : outcome B :=
  match o with
  | Done a => k a
  | Panic => Panic
  | OutOfFuel => OutOfFuel
  end.

(** ** The random source *)

(** [math/rand]'s global source: an infinite supply of raw draws and the
    number of draws consumed so far. *)
Record Rand : Type := mkRand { src : nat -> Z; pos : nat }.

(** [rand.Intn(n)]: panics when [n <= 0], otherwise a value of [[0, n)]. *)
Definition Intn (n : Z) (r : Rand) : option (Z * Rand) :=
  if n <=? 0 then None
  else Some (src r (pos r) mod n, mkRand (src r) (S (pos r))).

(** Every value of [[0, n)] keeps turning up in the draws still to come: what
    a run of a random source does with probability one. *)
Definition fair (n : Z) (r : Rand) : Prop :=
  forall (k : nat) (v : Z), 0 <= v < n ->
    exists j : nat, (pos r + k <= j)%nat /\ src r j mod n = v.

(** The source that draws 0, 1, 2, ... *)
Definition counting : Rand := mkRand Z.of_nat 0.

(** The source that replays [l] and then draws 0 forever. *)
Definition replay (l : list Z) : Rand := mkRand (fun i => nth i l 0) 0.

(** ** RandomFixedIndexes *)

(** [for i := start; i < end; i++ { indexes = append(indexes, i) }], with the
    number of iterations left as the structural argument. *)
Fixpoint ascending (n : nat) (i end_ : Z) (indexes : list Z) : list Z :=
  match n with
  | O => indexes
  | S n' =>
      if i <? end_ then ascending n' (Go.uadd i 1) end_ (indexes ++ [i])
      else indexes
  end.

(** The rejection loop
    [for i := 0; i < int(count); { index := uint(rand.Intn(int(end-start))) + start; ... }]. *)
Fixpoint draw (fuel : nat) (start end_ count : Z) (i : Z)
    (m : gmap Z Z) (indexes : list Z) (r : Rand) : outcome (list Z * Rand) :=
  if i <? Go.to_int count then
    match fuel with
    | O => OutOfFuel
    | S fuel' =>
        match Intn (Go.to_int (Go.usub end_ start)) r with
        | None => Panic
        | Some (v, r') =>
            let index := Go.uadd (Go.to_uint v) start in
            match m !! index with
            | Some _ => draw fuel' start end_ count i m indexes r'
            | None =>
                draw fuel' start end_ count (i + 1)
                  (<[index := index]> m) (indexes ++ [index]) r'
            end
        end
    end
  else Done (indexes, r).

Definition RandomFixedIndexes (start end_ count : Z) (r : Rand) (fuel : nat)
    : outcome (list Z * Rand) :=
  if end_ <? start then Done ([], r)
  else if Go.usub end_ start <? count then
    Done (ascending (Z.to_nat (Go.usub end_ start)) start end_ [], r)
  else draw fuel start end_ count 0 ∅ [] r.

(** ** strconv *)

Module strconv.

(** A decimal digit, as [ch -= '0'; if ch > 9 { error }]. *)
Definition digit (c : ascii) : option Z :=
  let n := Z.of_nat (nat_of_ascii c) in
  if (48 <=? n) && (n <=? 57) then Some (n - 48) else None.

Fixpoint digits (s : string) (n : Z) : option Z :=
  match s with
  | EmptyString => Some n
  | String c s' =>
      match digit c with
      | Some d => digits s' (n * 10 + d)
      | None => None
      end
  end.

(** [strconv.Atoi] (which is [ParseInt(s, 10, 64)] at 64 bits): an optional
    sign, at least one decimal digit and nothing else, and a value that
    fits [int]; [None] is the syntax or range error. *)
Definition Atoi (s : string) : option Z :=
  match s with
  | EmptyString => None
  | String c rest =>
      let neg := Ascii.eqb c "-" in
      let body := if neg || Ascii.eqb c "+" then rest else s in
      match body with
      | EmptyString => None
      | _ =>
          match digits body 0 with
          | Some n =>
              let v := if neg then - n else n in
              if (- 2 ^ 63 <=? v) && (v <=? Go.MaxInt) then Some v else None
          | None => None
          end
      end
  end.

End strconv.

(** ** k8s.io/apimachinery: selection and labels *)

Module selection.

Inductive Operator : Type :=
| DoesNotExist | Equals | DoubleEquals | In | NotEquals | NotIn
| Exists | GreaterThan | LessThan.

End selection.

Module labels.

(** [labels.Requirement]. *)
Record Requirement : Type := mkRequirement {
  key : string;
  operator : selection.Operator;
  strValues : list string
}.

(** [labels.Selector], as its implementation [internalSelector]: the
    requirements, all of which have to hold. *)
Definition Selector : Type := list Requirement.

(** [labels.Set.Has] and [labels.Set.Get]. *)
Definition Has (ls : gmap string string) (k : string) : bool :=
  match ls !! k with Some _ => true | None => false end.

Definition Get (ls : gmap string string) (k : string) : string :=
  match ls !! k with Some v => v | None => EmptyString end.

Definition hasValue (r : Requirement) (value : string) : bool :=
  existsb (String.eqb value) (strValues r).

(** [Requirement.Matches]. *)
Definition Matches (r : Requirement) (ls : gmap string string) : bool :=
  match operator r with
  | selection.In | selection.Equals | selection.DoubleEquals =>
      if negb (Has ls (key r)) then false else hasValue r (Get ls (key r))
  | selection.NotIn | selection.NotEquals =>
      if negb (Has ls (key r)) then true
      else negb (hasValue r (Get ls (key r)))
  | selection.Exists => Has ls (key r)
  | selection.DoesNotExist => negb (Has ls (key r))
  | selection.GreaterThan | selection.LessThan =>
      if negb (Has ls (key r)) then false
      else
        match strconv.Atoi (Get ls (key r)) with
        | None => false
        | Some lsValue =>
            match strValues r with
            | [v] =>
                match strconv.Atoi v with
                | None => false
                | Some rValue =>
                    match operator r with
                    | selection.GreaterThan => rValue <? lsValue
                    | _ => lsValue <? rValue
                    end
                end
            | _ => false
            end
        end
  end.

(** [internalSelector.Matches] and [internalSelector.Empty]. *)
Definition SelectorMatches (sel : Selector) (ls : gmap string string) : bool :=
  forallb (fun r => Matches r ls) sel.

Definition Empty (sel : Selector) : bool :=
  match sel with [] => true | _ => false end.

(** [labels.SelectorFromSet]: one [Equals] requirement per entry of the
    map.  (The library sorts them by key; the order has no bearing on
    [SelectorMatches].) *)
Definition SelectorFromSet (ls : gmap string string) : Selector :=
  map (fun kv => mkRequirement (fst kv) selection.Equals [snd kv])
      (map_to_list ls).

End labels.

(** ** The data model *)

(** The fields of [v1.Pod] that the selection reads. *)
Record Pod : Type := mkPod {
  Namespace : string;
  Name : string;
  Labels : gmap string string;
  Annotations : gmap string string;
  Phase : string;          (* pod.Status.Phase, a string type *)
  NodeName : string        (* pod.Spec.NodeName *)
}.

(** The fields of [v1.Node] that the selection reads. *)
Record Node : Type := mkNode {
  Node_Name : string;
  Node_Labels : gmap string string
}.

(** [v1alpha1.SelectorSpec]. *)
Record SelectorSpec : Type := mkSelectorSpec {
  Pods : gmap string (list string);
  LabelSelectors : gmap string string;
  FieldSelectors : gmap string string;
  Nodes : list string;
  NodeSelectors : gmap string string;
  Namespaces : list string;
  AnnotationSelectors : gmap string string;
  PodPhaseSelectors : list string
}.

(** [v1alpha1.PodMode], a string type, and its constants. *)
Definition PodMode : Type := string.
Definition OnePodMode : PodMode := "one".
Definition AllPodMode : PodMode := "all".
Definition FixedPodMode : PodMode := "fixed".
Definition FixedPercentPodMode : PodMode := "fixed-percent".
Definition RandomMaxPercentPodMode : PodMode := "random-max-percent".

(** The errors a call can return. *)
Inductive error : Type :=
| ErrNoPodSelected                (* "no pod is selected" *)
| ErrEmptyList                    (* "cannot generate pods from empty list" *)
| ErrValueLE0                     (* "cannot select any pod as value below or equal 0" *)
| ErrFixedPercentInvalid (p : Z)  (* "fixed percentage value of %d is invalid, Must be (0,100]" *)
| ErrMaxPercentInvalid (p : Z)    (* "fixed percentage value of %d is invalid, Must be [0-100]" *)
| ErrModeNotSupported (mode : PodMode)   (* "mode %s not supported" *)
| ErrUnsupportedOperator (op : selection.Operator)  (* "unsupported operator: %s" *)
| ErrAtoi (value : string)        (* the error of strconv.Atoi *)
| ErrParse (str : string)         (* the error of labels.Parse *)
| ErrClient (e : string)          (* an error of the cluster client *)
| ErrMock (e : string).           (* an error injected at a mock point *)

Inductive result (A : Type) : Type :=
| Ok (a : A)
| Err (e : error).
Arguments Ok {A} a.
Arguments Err {A} e.

Notation "'let*' x ':=' e 'in' k" :=
  (match e with Ok x => k | Err err => Err err end)
  (at level 10, x name, e at level 100, k at level 200, only parsing).

(** ** The cluster client *)

(** What [c.Get] does: the object, a not-found error, or another error. *)
Inductive GetResult (A : Type) : Type :=
| Found (a : A)
| NotFound
| Failed (e : string).
Arguments Found {A} a.
Arguments NotFound {A}.
Arguments Failed {A} e.

(** [client.ListOptions]: a [nil] selector is [None]. *)
Record ListOptions : Type := mkListOptions {
  LabelSelector : option labels.Selector;
  FieldSelector : option (gmap string string)
}.

(** [client.Client], with [Get] and [List] split by the type of object. *)
Record Client : Type := mkClient {
  GetPod : string -> string -> GetResult Pod;      (* namespace, name *)
  ListPods : ListOptions -> string + list Pod;
  GetNode : string -> GetResult Node;
  ListNodes : ListOptions -> string + list Node
}.

(** [common.ControllerCfg], the two patterns the selection reads. *)
Record ControllerCfg : Type := mkControllerCfg {
  AllowedNamespaces : string;
  IgnoredNamespaces : string
}.

(** The mock points of [pkg/mock] that [SelectAndFilterPods] consults; both
    are unset outside the tests. *)
Record MockPoints : Type := mkMockPoints {
  MockSelectAndFilterPods : option (list Pod);
  MockSelectedAndFilterPodsError : option error
}.

(** ** The filter stages *)

(** [filterPodByNode]: the inner loop over the nodes, then the loop over the
    pods. *)
Fixpoint node_loop (pod : Pod) (nodes : list Node) (filteredList : list Pod)
    : list Pod :=
  match nodes with
  | [] => filteredList
  | node :: rest =>
      node_loop pod rest
        (if String.eqb (NodeName pod) (Node_Name node)
         then filteredList ++ [pod] else filteredList)
  end.

Fixpoint pod_node_loop (pods : list Pod) (nodes : list Node)
    (filteredList : list Pod) : list Pod :=
  match pods with
  | [] => filteredList
  | pod :: rest => pod_node_loop rest nodes (node_loop pod nodes filteredList)
  end.

Definition filterPodByNode (pods : list Pod) (nodes : list Node) : list Pod :=
  if (Go.len nodes =? 0) then [] else pod_node_loop pods nodes [].

(** [filterByAnnotations]. *)
Fixpoint annotation_loop (pods : list Pod) (annotations : labels.Selector)
    (filteredList : list Pod) : list Pod :=
  match pods with
  | [] => filteredList
  | pod :: rest =>
      annotation_loop rest annotations
        (if labels.SelectorMatches annotations (Annotations pod)
         then filteredList ++ [pod] else filteredList)
  end.

Definition filterByAnnotations (pods : list Pod) (annotations : labels.Selector)
    : list Pod :=
  if labels.Empty annotations then pods
  else annotation_loop pods annotations [].

(** The loop that splits the requirements into the including and the excluding
    group, shared word for word by [filterByNamespaceSelector] and
    [filterByPhaseSelector]. *)
Fixpoint split_loop (reqs reqIncl reqExcl : list labels.Requirement)
    : result (list labels.Requirement * list labels.Requirement) :=
  match reqs with
  | [] => Ok (reqIncl, reqExcl)
  | req :: rest =>
      match labels.operator req with
      | selection.Exists => split_loop rest (reqIncl ++ [req]) reqExcl
      | selection.DoesNotExist => split_loop rest reqIncl (reqExcl ++ [req])
      | op => Err (ErrUnsupportedOperator op)
      end
  end.

(** [for _, req := range reqIncl { if req.Matches(selector) { included = true; break } }] *)
Fixpoint include_loop (reqIncl : list labels.Requirement)
    (selector : gmap string string) (included : bool) : bool :=
  match reqIncl with
  | [] => included
  | req :: rest =>
      if labels.Matches req selector then true
      else include_loop rest selector included
  end.

(** [for _, req := range reqExcl { if !req.Matches(selector) { included = false; break } }] *)
Fixpoint exclude_loop (reqExcl : list labels.Requirement)
    (selector : gmap string string) (included : bool) : bool :=
  match reqExcl with
  | [] => included
  | req :: rest =>
      if negb (labels.Matches req selector) then false
      else exclude_loop rest selector included
  end.

(** The loop over the pods of the two functions; [attr] is [pod.Namespace]
    in the one and [string(pod.Status.Phase)] in the other, and the set the
    requirements are matched against is [labels.Set{attr: ""}]. *)
Fixpoint requirement_loop (attr : Pod -> string) (pods : list Pod)
    (reqIncl reqExcl : list labels.Requirement) (filteredList : list Pod)
    : list Pod :=
  match pods with
  | [] => filteredList
  | pod :: rest =>
      let included := (Go.len reqIncl =? 0) in
      let selector : gmap string string := {[ attr pod := EmptyString ]} in
      let included := include_loop reqIncl selector included in
      let included := exclude_loop reqExcl selector included in
      requirement_loop attr rest reqIncl reqExcl
        (if included then filteredList ++ [pod] else filteredList)
  end.

Definition filterByNamespaceSelector (pods : list Pod)
    (namespaces : labels.Selector) : result (list Pod) :=
  if labels.Empty namespaces then Ok pods
  else
    let reqs := namespaces in
    let* groups := split_loop reqs [] [] in
    Ok (requirement_loop Namespace pods (fst groups) (snd groups) []).

Definition filterByPhaseSelector (pods : list Pod) (phases : labels.Selector)
    : result (list Pod) :=
  if labels.Empty phases then Ok pods
  else
    let reqs := phases in
    let* groups := split_loop reqs [] [] in
    Ok (requirement_loop Phase pods (fst groups) (snd groups) []).

(** ** The fixed-size sampler *)

(** [for _, index := range indexes { filteredPods = append(filteredPods, pods[index]) }];
    an index out of range panics. *)
Fixpoint index_loop (pods : list Pod) (indexes : list Z)
    (filteredPods : list Pod) : outcome (list Pod) :=
  match indexes with
  | [] => Done filteredPods
  | index :: rest =>
      match pods !! Z.to_nat index with
      | Some pod => index_loop pods rest (filteredPods ++ [pod])
      | None => Panic
      end
  end.

Definition getFixedSubListFromPodList (pods : list Pod) (num : Z) (r : Rand)
    (fuel : nat) : outcome (list Pod * Rand) :=
  bind (RandomFixedIndexes 0 (Go.to_uint (Go.len pods)) (Go.to_uint num) r fuel)
    (fun ir =>
       bind (index_loop pods (fst ir) [])
         (fun filteredPods => Done (filteredPods, snd ir))).

(** [int(math.Floor(float64(n) * float64(percentage) / 100))].  For
    [0 <= percentage <= 100] and [n] a slice length of at most
    [float_exact_len] the product is below [2^53] and so exact in [float64],
    and the quotient, rounded to a nearest [float64] whose spacing is at most
    [2^-7] there, has the floor of the exact one (the fractional part of
    which is a multiple of [1/100]): the expression is the integer
    quotient. *)
Definition float_exact_len : Z := 2 ^ 46.

Definition percent_of (n percentage : Z) : Z := n * percentage / 100.

(** [filterPodsByMode]. *)
Definition filterPodsByMode (pods : list Pod) (mode : PodMode) (value : string)
    (r : Rand) (fuel : nat) : outcome (result (list Pod) * Rand) :=
  if Go.len pods =? 0 then Done (Err ErrEmptyList, r)
  else if String.eqb mode OnePodMode then
    match Intn (Go.len pods) r with
    | None => Panic
    | Some (index, r') =>
        match pods !! Z.to_nat index with
        | Some pod => Done (Ok [pod], r')
        | None => Panic
        end
    end
  else if String.eqb mode AllPodMode then Done (Ok pods, r)
  else if String.eqb mode FixedPodMode then
    match strconv.Atoi value with
    | None => Done (Err (ErrAtoi value), r)
    | Some num =>
        let num := if Go.len pods <? num then Go.len pods else num in
        if num <=? 0 then Done (Err ErrValueLE0, r)
        else
          bind (getFixedSubListFromPodList pods num r fuel)
            (fun pr => Done (Ok (fst pr), snd pr))
    end
  else if String.eqb mode FixedPercentPodMode then
    match strconv.Atoi value with
    | None => Done (Err (ErrAtoi value), r)
    | Some percentage =>
        if percentage =? 0 then Done (Err ErrValueLE0, r)
        else if (percentage <? 0) || (100 <? percentage) then
          Done (Err (ErrFixedPercentInvalid percentage), r)
        else
          let num := percent_of (Go.len pods) percentage in
          bind (getFixedSubListFromPodList pods num r fuel)
            (fun pr => Done (Ok (fst pr), snd pr))
    end
  else if String.eqb mode RandomMaxPercentPodMode then
    match strconv.Atoi value with
    | None => Done (Err (ErrAtoi value), r)
    | Some maxPercentage =>
        if maxPercentage =? 0 then Done (Err ErrValueLE0, r)
        else if (maxPercentage <? 0) || (100 <? maxPercentage) then
          Done (Err (ErrMaxPercentInvalid maxPercentage), r)
        else
          match Intn (maxPercentage + 1) r with
          | None => Panic
          | Some (percentage, r') =>
              let num := percent_of (Go.len pods) percentage in
              bind (getFixedSubListFromPodList pods num r' fuel)
                (fun pr => Done (Ok (fst pr), snd pr))
          end
    end
  else Done (Err (ErrModeNotSupported mode), r).

(** ** The pipeline *)

Section Pipeline.

(** What the code takes from outside this file: [regexp.MatchString]
    ([None] when the pattern does not compile), [labels.Parse] ([None] when
    the text does not parse) and the [String] method of [label.Label]. *)
Variable MatchString : string -> string -> option bool.
Variable Parse : string -> option labels.Selector.
Variable LabelString : gmap string string -> string.

(** [IsAllowedNamespaces]. *)
Definition IsAllowedNamespaces (cfg : ControllerCfg) (namespace : string)
    : bool :=
  if negb (String.eqb (AllowedNamespaces cfg) EmptyString) then
    match MatchString (AllowedNamespaces cfg) namespace with
    | None => false
    | Some matched => matched
    end
  else if negb (String.eqb (IgnoredNamespaces cfg) EmptyString) then
    match MatchString (IgnoredNamespaces cfg) namespace with
    | None => false
    | Some matched => negb matched
    end
  else true.

(** [filterByNamespaces] (the log line of the other branch writes no
    result). *)
Fixpoint namespaces_loop (cfg : ControllerCfg) (pods : list Pod)
    (filteredList : list Pod) : list Pod :=
  match pods with
  | [] => filteredList
  | pod :: rest =>
      namespaces_loop cfg rest
        (if IsAllowedNamespaces cfg (Namespace pod)
         then filteredList ++ [pod] else filteredList)
  end.

Definition filterByNamespaces (cfg : ControllerCfg) (pods : list Pod)
    : list Pod :=
  namespaces_loop cfg pods [].

(** [parseSelector]. *)
Definition parseSelector (str : string) : result labels.Selector :=
  match Parse str with
  | Some selector => Ok selector
  | None => Err (ErrParse str)
  end.

(** The loops of the explicit branch of [SelectPods]: over the names of one
    namespace, and over the entries of [selector.Pods].  (For a namespace
    that [IsAllowedNamespaces] refuses the outer loop writes a log line and
    goes on all the same.) *)
Fixpoint names_loop (c : Client) (ns : string) (names : list string)
    (pods : list Pod) : result (list Pod) :=
  match names with
  | [] => Ok pods
  | name :: rest =>
      match GetPod c ns name with
      | Found pod => names_loop c ns rest (pods ++ [pod])
      | NotFound => names_loop c ns rest pods
      | Failed e => Err (ErrClient e)
      end
  end.

Fixpoint entries_loop (c : Client) (entries : list (string * list string))
    (pods : list Pod) : result (list Pod) :=
  match entries with
  | [] => Ok pods
  | (ns, names) :: rest =>
      let* pods := names_loop c ns names pods in
      entries_loop c rest pods
  end.

(** [for _, nodename := range selector.Nodes]: a node is kept when its
    [Get] has no error, and every error is passed over. *)
Fixpoint nodes_loop (c : Client) (names : list string) (nodes : list Node)
    : list Node :=
  match names with
  | [] => nodes
  | nodename :: rest =>
      match GetNode c nodename with
      | Found node => nodes_loop c rest (nodes ++ [node])
      | _ => nodes_loop c rest nodes
      end
  end.

(** [SelectPods].  The entries of [selector.Pods] are visited in the order
    of [map_to_list] (Go leaves the order of a [range] over a map open). *)
Definition SelectPods (cfg : ControllerCfg) (c : Client)
    (selector : SelectorSpec) : result (list Pod) :=
  if (0 <? size (Pods selector))%nat then
    entries_loop c (map_to_list (Pods selector)) []
  else
    let listOptions :=
      mkListOptions
        (if (0 <? size (LabelSelectors selector))%nat
         then Some (labels.SelectorFromSet (LabelSelectors selector))
         else None)
        (if (0 <? size (FieldSelectors selector))%nat
         then Some (FieldSelectors selector) else None) in
    match ListPods c listOptions with
    | inl e => Err (ErrClient e)
    | inr items =>
        let pods := [] ++ items in
        let* pods :=
          if (0 <? Go.len (Nodes selector))
             || (0 <? size (NodeSelectors selector))%nat
          then
            let nodes :=
              if 0 <? Go.len (Nodes selector)
              then nodes_loop c (Nodes selector) [] else [] in
            let* nodes :=
              if (0 <? size (NodeSelectors selector))%nat then
                match
                  ListNodes c
                    (mkListOptions
                       (Some (labels.SelectorFromSet (NodeSelectors selector)))
                       None)
                with
                | inl e => Err (ErrClient e)
                | inr items => Ok (nodes ++ items)
                end
              else Ok nodes in
            Ok (filterPodByNode pods nodes)
          else Ok pods in
        let pods := filterByNamespaces cfg pods in
        let* namespaceSelector :=
          parseSelector (String.concat "," (Namespaces selector)) in
        let* pods := filterByNamespaceSelector pods namespaceSelector in
        let* annotationsSelector :=
          parseSelector (LabelString (AnnotationSelectors selector)) in
        let pods := filterByAnnotations pods annotationsSelector in
        let* phaseSelector :=
          parseSelector (String.concat "," (PodPhaseSelectors selector)) in
        let* pods := filterByPhaseSelector pods phaseSelector in
        Ok pods
    end.

(** The loops of the explicit part of [CheckPodMeetSelector]. *)
Fixpoint meet_names_loop (pod : Pod) (names : list string) (meet : bool)
    : bool :=
  match names with
  | [] => meet
  | name :: rest =>
      meet_names_loop pod rest
        (if String.eqb (Name pod) name then true else meet)
  end.

(** [None] is the [return false, nil] inside the loop; [Some meet] is the
    loop running to its end. *)
Fixpoint meet_entries_loop (pod : Pod) (entries : list (string * list string))
    (meet : bool) : option bool :=
  match entries with
  | [] => Some meet
  | (ns, names) :: rest =>
      if negb (String.eqb (Namespace pod) ns) then
        meet_entries_loop pod rest meet
      else
        let meet := meet_names_loop pod names meet in
        if negb meet then None else meet_entries_loop pod rest meet
  end.

(** [CheckPodMeetSelector].  (Replacing a [nil] map of labels by an empty
    one changes nothing here, both being [∅].) *)
Definition CheckPodMeetSelector (pod : Pod) (selector : SelectorSpec)
    : result bool :=
  match
    (if (0 <? size (Pods selector))%nat
     then meet_entries_loop pod (map_to_list (Pods selector)) false
     else Some false)
  with
  | None => Ok false
  | Some _ =>
      if (0 <? size (LabelSelectors selector))%nat
         && ((size (Labels pod) =? 0)%nat
             || negb (labels.SelectorMatches
                        (labels.SelectorFromSet (LabelSelectors selector))
                        (Labels pod)))
      then Ok false
      else
        let pods := [pod] in
        let* namespaceSelector :=
          parseSelector (String.concat "," (Namespaces selector)) in
        let* pods := filterByNamespaceSelector pods namespaceSelector in
        let* annotationsSelector :=
          parseSelector (LabelString (AnnotationSelectors selector)) in
        let pods := filterByAnnotations pods annotationsSelector in
        let* phaseSelector :=
          parseSelector (String.concat "," (PodPhaseSelectors selector)) in
        let* pods := filterByPhaseSelector pods phaseSelector in
        if 0 <? Go.len pods then Ok true else Ok false
  end.

(** [SelectAndFilterPods]; [selector], [mode] and [value] are what the
    three methods of [spec] return. *)
Definition SelectAndFilterPods (mock : MockPoints) (cfg : ControllerCfg)
    (c : Client) (selector : SelectorSpec) (mode : PodMode) (value : string)
    (r : Rand) (fuel : nat) : outcome (result (list Pod) * Rand) :=
  match MockSelectAndFilterPods mock with
  | Some pods => Done (Ok pods, r)
  | None =>
      match MockSelectedAndFilterPodsError mock with
      | Some err => Done (Err err, r)
      | None =>
          match SelectPods cfg c selector with
          | Err err => Done (Err err, r)
          | Ok pods =>
              if Go.len pods =? 0 then Done (Err ErrNoPodSelected, r)
              else
                bind (filterPodsByMode pods mode value r fuel)
                  (fun fr =>
                     match fst fr with
                     | Err err => Done (Err err, snd fr)
                     | Ok filteredPod => Done (Ok filteredPod, snd fr)
                     end)
          end
      end
  end.

End Pipeline.

(** ** A cluster held in memory *)

(** The client of a cluster whose pods are [pods] and whose nodes are
    [nodes], and which serves every request: [Get] finds the object of the
    given identity, [List] returns the objects that the selectors of the
    options match (no selector matches everything).  [fieldMatches] is the
    server's evaluation of a field selector. *)
Definition find_pod (pods : list Pod) (ns name : string) : GetResult Pod :=
  match
    List.find (fun p => String.eqb (Namespace p) ns && String.eqb (Name p) name) pods
  with
  | Some p => Found p
  | None => NotFound
  end.

Definition find_node (nodes : list Node) (name : string) : GetResult Node :=
  match List.find (fun n => String.eqb (Node_Name n) name) nodes with
  | Some n => Found n
  | None => NotFound
  end.

Definition selects (o : option labels.Selector) (ls : gmap string string)
    : bool :=
  match o with
  | Some sel => labels.SelectorMatches sel ls
  | None => true
  end.

Definition cluster (fieldMatches : gmap string string -> Pod -> bool)
    (pods : list Pod) (nodes : list Node) : Client :=
  mkClient
    (find_pod pods)
    (fun opts =>
       inr (List.filter
              (fun p =>
                 selects (LabelSelector opts) (Labels p)
                 && match FieldSelector opts with
                    | Some fs => fieldMatches fs p
                    | None => true
                    end)
              pods))
    (find_node nodes)
    (fun opts =>
       inr (List.filter (fun n => selects (LabelSelector opts) (Node_Labels n))
              nodes)).

(** ** Stand-ins for the outside world, for the worked examples *)

(** Whether [s] has [pat] as a substring. *)
Fixpoint contains (pat s : string) : bool :=
  String.prefix pat s
  || match s with
     | EmptyString => false
     | String _ s' => contains pat s'
     end.

(** [regexp.MatchString] on a pattern without metacharacters: the text
    matches when it contains the pattern. *)
Definition literal_MatchString (pat s : string) : option bool :=
  Some (contains pat s).

(** Splitting a text at each occurrence of [sep]. *)
Fixpoint split_on (sep : ascii) (s : string) (tok : string) : list string :=
  match s with
  | EmptyString => [tok]
  | String c s' =>
      if Ascii.eqb c sep then tok :: split_on sep s' EmptyString
      else split_on sep s' (tok ++ String c EmptyString)
  end.

(** One token of a selector text: [!key], [key=value] or [key]. *)
Definition parse_token (tok : string) : option labels.Requirement :=
  match tok with
  | EmptyString => None
  | String c rest =>
      if Ascii.eqb c "!" then
        Some (labels.mkRequirement rest selection.DoesNotExist [])
      else
        match split_on "=" tok EmptyString with
        | [k] => Some (labels.mkRequirement k selection.Exists [])
        | [k; v] => Some (labels.mkRequirement k selection.Equals [v])
        | _ => None
        end
  end.

Fixpoint parse_tokens (toks : list string) : option labels.Selector :=
  match toks with
  | [] => Some []
  | tok :: rest =>
      match parse_token tok, parse_tokens rest with
      | Some r, Some rs => Some (r :: rs)
      | _, _ => None
      end
  end.

(** [labels.Parse] on the texts the worked examples use: the empty text, and
    well-formed names, negated names and [key=value] pairs joined by commas. *)
Definition token_Parse (str : string) : option labels.Selector :=
  match str with
  | EmptyString => Some []
  | _ => parse_tokens (split_on "," str EmptyString)
  end.

(** Modelled from the spec: the [String] method of [label.Label] ([pkg/label]
    is not among the sources).  The map is rendered to a textual expression
    of which only the keys are used, here the keys joined by commas. *)
Definition key_LabelString (l : gmap string string) : string :=
  String.concat "," (map fst (map_to_list l)).

(** [n] pods [p0], [p1], ... of the namespace [default]. *)
Definition numbered (n : nat) : list Pod :=
  map (fun i => mkPod "default" ("p" ++ String (ascii_of_nat (48 + i)) EmptyString)
                      ∅ ∅ "Running" "")
      (seq 0 n).

(** ** What the properties are stated with *)

(** The indexes of [[start, end)] in ascending order. *)
Definition range_indexes (start end_ : Z) : list Z :=
  map (fun k => start + Z.of_nat k) (seq 0 (Z.to_nat (end_ - start))).

(** What the rejection loop of [RandomFixedIndexes] keeps true of its
    variables [i], [m] and [indexes]. *)
Definition draw_inv (start end_ : Z) (i : Z) (m : gmap Z Z) (indexes : list Z)
    : Prop :=
  Go.len indexes = i
  /\ NoDup indexes
  /\ (forall x, x ∈ indexes <-> is_Some (m !! x))
  /\ (forall x, x ∈ indexes -> start <= x < end_).

(** Membership as the design document words it: with no [Exists] requirement
    the item is included, otherwise it is when the key of some [Exists]
    requirement is in the set; it is excluded when the key of some
    [DoesNotExist] requirement is in the set; it is kept when included and
    not excluded. *)
Definition is_exists (r : labels.Requirement) : bool :=
  match labels.operator r with selection.Exists => true | _ => false end.

Definition is_does_not_exist (r : labels.Requirement) : bool :=
  match labels.operator r with selection.DoesNotExist => true | _ => false end.

Definition keeps (expr : labels.Selector) (set : gmap string string) : bool :=
  let included :=
    negb (existsb is_exists expr)
    || existsb (fun r => is_exists r && labels.Has set (labels.key r)) expr in
  let excluded :=
    existsb (fun r => is_does_not_exist r && labels.Has set (labels.key r)) expr in
  included && negb excluded.

Definition supported (r : labels.Requirement) : Prop :=
  labels.operator r = selection.Exists
  \/ labels.operator r = selection.DoesNotExist.

(** The stages that [SelectPods] and [CheckPodMeetSelector] both end with:
    the namespace, the annotation and the phase requirement filter, each
    after the parse of its expression. *)
Definition requirement_stages (Parse : string -> option labels.Selector)
    (LabelString : gmap string string -> string) (selector : SelectorSpec)
    (pods : list Pod) : result (list Pod) :=
  let* namespaceSelector :=
    parseSelector Parse (String.concat "," (Namespaces selector)) in
  let* pods := filterByNamespaceSelector pods namespaceSelector in
  let* annotationsSelector :=
    parseSelector Parse (LabelString (AnnotationSelectors selector)) in
  let pods := filterByAnnotations pods annotationsSelector in
  let* phaseSelector :=
    parseSelector Parse (String.concat "," (PodPhaseSelectors selector)) in
  let* pods := filterByPhaseSelector pods phaseSelector in
  Ok pods.

(** The errors that the pipeline itself can return. *)
Definition pipeline_error (e : error) : Prop :=
  match e with
  | ErrClient _ | ErrParse _ | ErrUnsupportedOperator _ => True
  | _ => False
  end.

(** A stage either fails whatever the pods, or keeps the pods that pass a
    test of the pod alone. *)
Definition stage_shape (stage : list Pod -> result (list Pod)) : Prop :=
  (exists e, pipeline_error e /\ forall pods, stage pods = Err e)
  \/ (exists test, forall pods, stage pods = Ok (List.filter test pods)).

(** How many of [nodes] carry the name of the node [pod] is assigned to. *)
Definition hosts (pod : Pod) (nodes : list Node) : nat :=
  length (List.filter (fun node => String.eqb (NodeName pod) (Node_Name node)) nodes).

(** The pods that the listed identities resolve to, in the order of the
    traversal. *)
Definition found (c : Client) (ns name : string) : list Pod :=
  match GetPod c ns name with Found pod => [pod] | _ => [] end.

Definition resolved (c : Client) (listed : gmap string (list string)) : list Pod :=
  flat_map (fun e => flat_map (found c (fst e)) (snd e)) (map_to_list listed).

(** The selector with its [Pods] map emptied. *)
Definition without_Pods (selector : SelectorSpec) : SelectorSpec :=
  mkSelectorSpec ∅ (LabelSelectors selector) (FieldSelectors selector)
    (Nodes selector) (NodeSelectors selector) (Namespaces selector)
    (AnnotationSelectors selector) (PodPhaseSelectors selector).

(** The client that answers as [c] does, except that a [Get] of a node that
    fails in [c] finds nothing. *)
Definition forgiving (c : Client) : Client :=
  mkClient (GetPod c) (ListPods c)
    (fun name =>
       match GetNode c name with
       | Failed _ => NotFound
       | answer => answer
       end)
    (ListNodes c).


(** The options of the bulk query of [SelectPods]. *)
Definition bulk_options (selector : SelectorSpec) : ListOptions :=
  mkListOptions
    (if (0 <? size (LabelSelectors selector))%nat
     then Some (labels.SelectorFromSet (LabelSelectors selector))
     else None)
    (if (0 <? size (FieldSelectors selector))%nat
     then Some (FieldSelectors selector) else None).

(** The node stage of [SelectPods], as it stands in the function: the
    resolution of the node inputs and the filter by node, when there is a
    node input. *)
Definition node_stage (c : Client) (selector : SelectorSpec) (pods : list Pod)
    : result (list Pod) :=
  if (0 <? Go.len (Nodes selector))
     || (0 <? size (NodeSelectors selector))%nat
  then
    let nodes :=
      if 0 <? Go.len (Nodes selector)
      then nodes_loop c (Nodes selector) [] else [] in
    let* nodes :=
      if (0 <? size (NodeSelectors selector))%nat then
        match
          ListNodes c
            (mkListOptions
               (Some (labels.SelectorFromSet (NodeSelectors selector)))
               None)
        with
        | inl e => Err (ErrClient e)
        | inr items => Ok (nodes ++ items)
        end
      else Ok nodes in
    Ok (filterPodByNode pods nodes)
  else Ok pods.

(** Whether one of [nodes] carries the name of the node of [pod]. *)
Definition hosted (nodes : list Node) (pod : Pod) : bool :=
  existsb (fun node => String.eqb (NodeName pod) (Node_Name node)) nodes.

(** * Properties *)

(** ** Machine integers *)

Lemma to_int_small x : 0 <= x <= Go.MaxInt -> Go.to_int x = x.
Proof.
  unfold Go.to_int, Go.word, Go.MaxInt. intros H.
  rewrite Z.mod_small by lia. lia.
Qed.

Lemma to_uint_small x : Go.is_uint x -> Go.to_uint x = x.
Proof. unfold Go.is_uint, Go.to_uint. intros H. apply Z.mod_small. lia. Qed.

Lemma usub_small x y : 0 <= y <= x -> x < Go.word -> Go.usub x y = x - y.
Proof. unfold Go.usub, Go.to_uint. intros H1 H2. apply Z.mod_small. lia. Qed.

Lemma uadd_small x y : 0 <= x -> 0 <= y -> x + y < Go.word -> Go.uadd x y = x + y.
Proof. unfold Go.uadd, Go.to_uint. intros H1 H2 H3. apply Z.mod_small. lia. Qed.

Lemma word_eq : Go.word = 18446744073709551616.
Proof. reflexivity. Qed.

Lemma MaxInt_eq : Go.MaxInt = 9223372036854775807.
Proof. reflexivity. Qed.

Lemma len_nonneg {A} (l : list A) : 0 <= Go.len l.
Proof. unfold Go.len. lia. Qed.

Lemma len_app {A} (l k : list A) : Go.len (l ++ k) = Go.len l + Go.len k.
Proof. unfold Go.len. rewrite length_app. lia. Qed.

(** ** The ascending branch of RandomFixedIndexes *)

Lemma range_indexes_nil start end_ : end_ <= start -> range_indexes start end_ = [].
Proof.
  intros H. unfold range_indexes.
  replace (Z.to_nat (end_ - start)) with O by lia. reflexivity.
Qed.

Lemma range_indexes_cons start end_ :
  start < end_ -> range_indexes start end_ = start :: range_indexes (start + 1) end_.
Proof.
  intros H. unfold range_indexes.
  replace (Z.to_nat (end_ - start)) with (S (Z.to_nat (end_ - (start + 1)))) by lia.
  cbn [seq map]. f_equal; [lia |].
  rewrite <- seq_shift, map_map.
  apply map_ext. intros k. lia.
Qed.

Lemma ascending_range n : forall i end_ indexes,
  0 <= i -> end_ < Go.word -> n = Z.to_nat (end_ - i) ->
  ascending n i end_ indexes = indexes ++ range_indexes i end_.
Proof.
  induction n as [| n IH]; intros i end_ indexes Hi He Hn; cbn [ascending].
  - rewrite range_indexes_nil by lia. now rewrite app_nil_r.
  - destruct (Z.ltb_spec i end_) as [Hlt | Hge]; [| lia].
    rewrite uadd_small by lia.
    rewrite IH by lia.
    rewrite (range_indexes_cons i end_) by lia.
    now rewrite <- app_assoc.
Qed.

Lemma range_indexes_length start end_ :
  length (range_indexes start end_) = Z.to_nat (end_ - start).
Proof. unfold range_indexes. now rewrite length_map, length_seq. Qed.

Lemma range_indexes_elem start end_ x :
  x ∈ range_indexes start end_ <-> start <= x < end_.
Proof.
  unfold range_indexes. rewrite list_elem_of_In, in_map_iff. split.
  - intros (k & <- & Hk). apply in_seq in Hk. lia.
  - intros H. exists (Z.to_nat (x - start)). split; [lia |].
    apply in_seq. lia.
Qed.

(** ** The rejection loop of RandomFixedIndexes *)

Lemma Intn_pos n r :
  0 < n ->
  Intn n r = Some (src r (pos r) mod n, mkRand (src r) (S (pos r)))
  /\ 0 <= src r (pos r) mod n < n.
Proof.
  intros Hn. unfold Intn.
  destruct (Z.leb_spec n 0) as [H | H]; [lia |].
  split; [reflexivity | apply Z.mod_pos_bound; lia].
Qed.

Lemma fair_later n r r' :
  fair n r -> src r' = src r -> (pos r <= pos r')%nat -> fair n r'.
Proof.
  intros Hf Hs Hp k v Hv.
  destruct (Hf (k + (pos r' - pos r))%nat v Hv) as (j & Hj & Hd).
  exists j. rewrite Hs. split; [lia | exact Hd].
Qed.

Lemma fair_counting n : 0 < n -> fair n counting.
Proof.
  intros Hn k v Hv. cbn [counting pos src].
  exists (Z.to_nat (v + Z.of_nat k * n)). split.
  - nia.
  - rewrite Z2Nat.id by nia. rewrite Z_mod_plus_full. apply Z.mod_small. lia.
Qed.

Section Draw.

Variables start end_ count : Z.
Hypothesis Hstart : 0 <= start <= end_.
Hypothesis Hend : end_ < Go.word.
Hypothesis Hwidth : end_ - start <= Go.MaxInt.
Hypothesis Hcount : 0 <= count <= end_ - start.

Local Abbreviation draw_inv := (draw_inv start end_).

Lemma draw_inv_init : draw_inv 0 ∅ [].
Proof.
  repeat split.
  - constructor.
  - intros H. inversion H.
  - rewrite lookup_empty. intros [? H]. discriminate.
  - inversion H.
  - inversion H.
Qed.

Lemma draw_inv_insert i m indexes v :
  draw_inv i m indexes -> 0 <= v < end_ - start -> m !! (v + start) = None ->
  draw_inv (i + 1) (<[v + start := v + start]> m) (indexes ++ [v + start]).
Proof.
  intros (Hl & Hn & Hm & Hr) Hv Hnone. repeat split.
  - rewrite len_app, Hl. reflexivity.
  - apply NoDup_app. split; [exact Hn | split].
    + intros x Hx Hx'. apply list_elem_of_singleton in Hx'. subst x.
      apply Hm in Hx. rewrite Hnone in Hx. destruct Hx; discriminate.
    + apply NoDup_singleton.
  - intros Hx. apply elem_of_app in Hx as [Hx | Hx].
    + destruct (decide (v + start = x)) as [-> | Hne].
      * rewrite lookup_insert_eq. eauto.
      * rewrite lookup_insert_ne by exact Hne. now apply Hm.
    + apply list_elem_of_singleton in Hx. subst x.
      rewrite lookup_insert_eq. eauto.
  - intros Hx. apply elem_of_app.
    destruct (decide (v + start = x)) as [-> | Hne].
    + right. apply list_elem_of_singleton. reflexivity.
    + rewrite lookup_insert_ne in Hx by exact Hne. left. now apply Hm.
  - apply elem_of_app in H as [Hx | Hx]; [now apply Hr |].
    apply list_elem_of_singleton in Hx. lia.
  - apply elem_of_app in H as [Hx | Hx]; [now apply Hr |].
    apply list_elem_of_singleton in Hx. lia.
Qed.

(** One turn of the loop, when it is taken. *)
Lemma draw_turn fuel i m indexes r :
  0 <= i < count ->
  let v := src r (pos r) mod (end_ - start) in
  let r' := mkRand (src r) (S (pos r)) in
  0 <= v < end_ - start
  /\ draw (S fuel) start end_ count i m indexes r =
     match m !! (v + start) with
     | Some _ => draw fuel start end_ count i m indexes r'
     | None =>
         draw fuel start end_ count (i + 1)
           (<[v + start := v + start]> m) (indexes ++ [v + start]) r'
     end.
Proof.
  intros Hi v r'.
  assert (Hc : Go.to_int count = count).
  { apply to_int_small. lia. }
  assert (Hn : Go.to_int (Go.usub end_ start) = end_ - start).
  { rewrite usub_small by lia. apply to_int_small. lia. }
  destruct (Intn_pos (end_ - start) r) as [HI Hv]; [lia |].
  split; [exact Hv |].
  cbn [draw]. rewrite Hc, Hn, HI.
  destruct (Z.ltb_spec i count) as [_ | Hge]; [| lia].
  fold v r'.
  assert (Hu : Go.uadd (Go.to_uint v) start = v + start).
  { rewrite to_uint_small by (unfold Go.is_uint; lia).
    apply uadd_small; lia. }
  rewrite Hu. reflexivity.
Qed.

Lemma draw_stop fuel i m indexes r :
  count <= i -> draw fuel start end_ count i m indexes r = Done (indexes, r).
Proof.
  intros Hi.
  assert (Hc : Go.to_int count = count).
  { apply to_int_small. lia. }
  destruct fuel; cbn [draw]; rewrite Hc;
    destruct (Z.ltb_spec i count); (lia || reflexivity).
Qed.

(** Whatever the source draws, the loop does not panic, and what it returns
    is [count] distinct indexes of the range. *)
Lemma draw_sound fuel : forall i m indexes r,
  i <= count -> draw_inv i m indexes ->
  match draw fuel start end_ count i m indexes r with
  | Done (l, _) =>
      Go.len l = count /\ NoDup l /\ (forall x, x ∈ l -> start <= x < end_)
  | Panic => False
  | OutOfFuel => True
  end.
Proof.
  induction fuel as [| fuel IH]; intros i m indexes r Hi Hinv;
    assert (H0 : 0 <= i) by (destruct Hinv as [<- _]; apply len_nonneg).
  - destruct (Z.ltb_spec i count) as [Hlt | Hge].
    + cbn [draw]. rewrite to_int_small by lia.
      destruct (Z.ltb_spec i count); [exact I | lia].
    + rewrite draw_stop by lia.
      destruct Hinv as (Hl & Hn & _ & Hr).
      split; [lia | split; [exact Hn | exact Hr]].
  - destruct (Z.ltb_spec i count) as [Hlt | Hge].
    + destruct (draw_turn fuel i m indexes r) as [Hv ->]; [lia |].
      destruct (m !! (_ + start)) eqn:Hm.
      * apply IH; [lia | exact Hinv].
      * apply IH; [lia |]. now apply draw_inv_insert.
    + rewrite draw_stop by lia.
      destruct Hinv as (Hl & Hn & _ & Hr).
      split; [lia | split; [exact Hn | exact Hr]].
Qed.

(** Fewer indexes than the range has leave one of them out. *)
Lemma fresh_index i m indexes :
  draw_inv i m indexes -> i < end_ - start ->
  exists v, 0 <= v < end_ - start /\ m !! (v + start) = None.
Proof.
  intros (Hl & Hn & Hm & Hr) Hi.
  destruct (decide (Forall (fun x => x ∈ indexes) (range_indexes start end_)))
    as [Hall | Hnot].
  - exfalso.
    assert (Hnd : NoDup (range_indexes start end_)).
    { unfold range_indexes.
      assert (Hinj : Inj eq eq (fun k : nat => start + Z.of_nat k)).
      { intros a b Hab. lia. }
      apply (NoDup_fmap_2 (fun k : nat => start + Z.of_nat k)), NoDup_seq. }
    assert (Hsub : range_indexes start end_ ⊆+ indexes).
    { apply NoDup_submseteq; [exact Hnd |].
      intros x Hx. rewrite Forall_forall in Hall. now apply Hall. }
    apply submseteq_length in Hsub.
    rewrite range_indexes_length in Hsub. unfold Go.len in Hl. lia.
  - apply not_Forall_Exists in Hnot; [| intros x; apply _].
    apply Exists_exists in Hnot as (x & Hx & Hout).
    apply range_indexes_elem in Hx.
    exists (x - start). split; [lia |].
    replace (x - start + start) with x by lia.
    destruct (m !! x) eqn:E; [| reflexivity].
    exfalso. apply Hout, Hm. eauto.
Qed.

(** When a value that is not yet taken is drawn [k] draws from now, the
    loop gets to its next index. *)
Lemma draw_fresh k : forall r i m indexes v,
  i < count -> draw_inv i m indexes ->
  0 <= v < end_ - start -> m !! (v + start) = None ->
  src r (pos r + k)%nat mod (end_ - start) = v ->
  exists f r2 m2 indexes2,
    (forall fuel,
       draw (f + fuel) start end_ count i m indexes r =
       draw fuel start end_ count (i + 1) m2 indexes2 r2)
    /\ draw_inv (i + 1) m2 indexes2
    /\ src r2 = src r /\ (pos r <= pos r2)%nat.
Proof.
  induction k as [| k IH]; intros r i m indexes v Hi Hinv Hv Hnone Hdraw;
    assert (H0 : 0 <= i) by (destruct Hinv as [<- _]; apply len_nonneg).
  - exists 1%nat, (mkRand (src r) (S (pos r))).
    exists (<[v + start := v + start]> m), (indexes ++ [v + start]).
    split; [| split; [now apply draw_inv_insert | cbn; split; [reflexivity | lia]]].
    intros fuel. cbn [Nat.add].
    destruct (draw_turn fuel i m indexes r) as [_ ->]; [lia |].
    replace (pos r + 0)%nat with (pos r) in Hdraw by lia.
    rewrite Hdraw, Hnone. reflexivity.
  - destruct (draw_turn 0 i m indexes r) as [Hv0 _]; [lia |].
    set (v0 := src r (pos r) mod (end_ - start)) in *.
    destruct (m !! (v0 + start)) eqn:Hm0.
    + destruct (IH (mkRand (src r) (S (pos r))) i m indexes v Hi Hinv Hv Hnone)
        as (f & r2 & m2 & indexes2 & Hrun & Hinv2 & Hs & Hp).
      { cbn [src pos]. replace (S (pos r) + k)%nat with (pos r + S k)%nat by lia.
        exact Hdraw. }
      exists (S f), r2, m2, indexes2.
      split; [| split; [exact Hinv2 | cbn in *; split; [exact Hs | lia]]].
      intros fuel. cbn [Nat.add].
      destruct (draw_turn (f + fuel) i m indexes r) as [_ ->]; [lia |].
      fold v0. rewrite Hm0. apply Hrun.
    + exists 1%nat, (mkRand (src r) (S (pos r))).
      exists (<[v0 + start := v0 + start]> m), (indexes ++ [v0 + start]).
      split; [| split; [now apply draw_inv_insert | cbn; split; [reflexivity | lia]]].
      intros fuel. cbn [Nat.add].
      destruct (draw_turn fuel i m indexes r) as [_ ->]; [lia |].
      fold v0. rewrite Hm0. reflexivity.
Qed.

(** On a fair source the loop returns. *)
Lemma draw_terminates d : forall i m indexes r,
  d = Z.to_nat (count - i) -> i <= count -> draw_inv i m indexes ->
  fair (end_ - start) r ->
  exists fuel l r', draw fuel start end_ count i m indexes r = Done (l, r').
Proof.
  induction d as [| d IH]; intros i m indexes r Hd Hi Hinv Hfair.
  - exists O, indexes, r. apply draw_stop. lia.
  - assert (Hlt : i < count) by lia.
    destruct (fresh_index i m indexes Hinv) as (v & Hv & Hnone); [lia |].
    destruct (Hfair O v Hv) as (j & Hj & Hjv).
    destruct (draw_fresh (j - pos r) r i m indexes v Hlt Hinv Hv Hnone)
      as (f & r2 & m2 & indexes2 & Hrun & Hinv2 & Hs & Hp).
    { replace (pos r + (j - pos r))%nat with j by lia. exact Hjv. }
    destruct (IH (i + 1) m2 indexes2 r2) as (fuel & l & r' & Hdone);
      [lia | lia | exact Hinv2 | now apply (fair_later _ r) |].
    exists (f + fuel)%nat, l, r'. rewrite Hrun. exact Hdone.
Qed.

End Draw.

(** ** RandomFixedIndexes *)

Lemma range_indexes_NoDup start end_ : NoDup (range_indexes start end_).
Proof.
  unfold range_indexes.
  assert (Hinj : Inj eq eq (fun k : nat => start + Z.of_nat k)).
  { intros a b Hab. lia. }
  apply (NoDup_fmap_2 (fun k : nat => start + Z.of_nat k)), NoDup_seq.
Qed.

(** The three ways through the function. *)
Lemma RandomFixedIndexes_reversed start end_ count r fuel :
  end_ < start -> RandomFixedIndexes start end_ count r fuel = Done ([], r).
Proof.
  intros H. unfold RandomFixedIndexes.
  destruct (Z.ltb_spec end_ start); [reflexivity | lia].
Qed.

Lemma RandomFixedIndexes_all start end_ count r fuel :
  0 <= start <= end_ -> end_ < Go.word -> end_ - start < count ->
  RandomFixedIndexes start end_ count r fuel = Done (range_indexes start end_, r).
Proof.
  intros Hs He Hc. unfold RandomFixedIndexes.
  destruct (Z.ltb_spec end_ start); [lia |].
  rewrite usub_small by lia.
  destruct (Z.ltb_spec (end_ - start) count); [| lia].
  rewrite ascending_range by lia. reflexivity.
Qed.

Lemma RandomFixedIndexes_draw start end_ count r fuel :
  0 <= start <= end_ -> end_ < Go.word -> count <= end_ - start ->
  RandomFixedIndexes start end_ count r fuel =
  draw fuel start end_ count 0 ∅ [] r.
Proof.
  intros Hs He Hc. unfold RandomFixedIndexes.
  destruct (Z.ltb_spec end_ start); [lia |].
  rewrite usub_small by lia.
  destruct (Z.ltb_spec (end_ - start) count); [lia | reflexivity].
Qed.




(** A count that does not fit [int] stops the loop before its first turn. *)
Lemma RandomFixedIndexes_count_beyond_int :
  0 <= 2 ^ 63 <= 2 ^ 63
  /\ RandomFixedIndexes 0 (2 ^ 63) (2 ^ 63) counting 1 = Done ([], counting)
  /\ Go.len (@nil Z) <> 2 ^ 63.
Proof.
  split; [lia |]. split; [reflexivity | discriminate].
Qed.

(** Within [int], the rejection branch: no panic, and a result of [K]
    distinct indexes of the range. *)
Lemma RandomFixedIndexes_sound N K r fuel :
  0 <= K <= N -> N <= Go.MaxInt ->
  match RandomFixedIndexes 0 N K r fuel with
  | Done (l, _) =>
      Go.len l = K /\ NoDup l /\ (forall x, x ∈ l -> 0 <= x < N)
  | Panic => False
  | OutOfFuel => True
  end.
Proof.
  intros HK HN.
  assert (HN' : N < Go.word) by (rewrite MaxInt_eq in HN; rewrite word_eq; lia).
  rewrite RandomFixedIndexes_draw by lia.
  apply draw_sound; [lia | lia | lia | lia | lia | apply draw_inv_init].
Qed.

Lemma RandomFixedIndexes_returns N K r :
  0 <= K <= N -> N <= Go.MaxInt -> fair N r ->
  exists fuel l r', RandomFixedIndexes 0 N K r fuel = Done (l, r').
Proof.
  intros HK HN Hfair.
  assert (HN' : N < Go.word) by (rewrite MaxInt_eq in HN; rewrite word_eq; lia).
  destruct (draw_terminates 0 N K ltac:(lia) HN' ltac:(lia) ltac:(lia)
              (Z.to_nat (K - 0)) 0 ∅ [] r eq_refl ltac:(lia)
              (draw_inv_init 0 N)) as (fuel & l & r' & Hrun).
  { now rewrite Z.sub_0_r. }
  exists fuel, l, r'. rewrite RandomFixedIndexes_draw by lia. exact Hrun.
Qed.

(** C5, as the code has it: for [0 <= K <= N] with [N] within [int],
    [RandomFixedIndexes 0 N K] does not panic, what it returns is [K]
    pairwise distinct indexes of [[0, N)], and on a fair source it returns;
    and a reversed range gives the empty result for every count. *)
Theorem RandomFixedIndexes_distinct N K r :
  0 <= K <= N -> N <= Go.MaxInt ->
  (forall fuel,
     match RandomFixedIndexes 0 N K r fuel with
     | Done (l, _) =>
         Go.len l = K /\ NoDup l /\ (forall x, x ∈ l -> 0 <= x < N)
     | Panic => False
     | OutOfFuel => True
     end)
  /\ (fair N r -> exists fuel l r', RandomFixedIndexes 0 N K r fuel = Done (l, r'))
  /\ (forall start end_ count fuel,
        end_ < start ->
        RandomFixedIndexes start end_ count r fuel = Done ([], r)).
Proof.
  intros HK HN. split; [| split].
  - intros fuel. now apply RandomFixedIndexes_sound.
  - intros Hfair. now apply RandomFixedIndexes_returns.
  - intros start end_ count fuel Hrev. now apply RandomFixedIndexes_reversed.
Qed.

Lemma RandomFixedIndexes_distinct_witness :
  exists fuel l r', RandomFixedIndexes 0 5 3 counting fuel = Done (l, r').
Proof.
  apply (RandomFixedIndexes_distinct 5 3 counting);
    [lia | rewrite MaxInt_eq; lia | apply fair_counting; lia].
Defined.

(** ** The loops of the filter stages, as list functions *)

Lemma node_loop_replicate pod nodes : forall filteredList,
  node_loop pod nodes filteredList =
  filteredList ++ replicate (hosts pod nodes) pod.
Proof.
  unfold hosts.
  induction nodes as [| node rest IH]; intros filteredList; cbn [node_loop List.filter].
  - now rewrite app_nil_r.
  - rewrite IH. destruct (String.eqb (NodeName pod) (Node_Name node)).
    + cbn [length replicate]. now rewrite <- app_assoc.
    + reflexivity.
Qed.

Lemma pod_node_loop_flat_map nodes pods : forall filteredList,
  pod_node_loop pods nodes filteredList =
  filteredList ++ flat_map (fun pod => replicate (hosts pod nodes) pod) pods.
Proof.
  induction pods as [| pod rest IH]; intros filteredList;
    cbn [pod_node_loop flat_map].
  - now rewrite app_nil_r.
  - rewrite IH, node_loop_replicate. now rewrite <- app_assoc.
Qed.

Lemma filterPodByNode_flat_map pods nodes :
  filterPodByNode pods nodes =
  flat_map (fun pod => replicate (hosts pod nodes) pod) pods.
Proof.
  unfold filterPodByNode. destruct nodes as [| node rest].
  - cbn. induction pods as [| pod pods IH]; [reflexivity | exact IH].
  - replace (Go.len (node :: rest) =? 0) with false.
    + apply pod_node_loop_flat_map.
    + symmetry. apply Z.eqb_neq. unfold Go.len. cbn [length]. lia.
Qed.

Lemma annotation_loop_filter annotations pods : forall filteredList,
  annotation_loop pods annotations filteredList =
  filteredList
  ++ List.filter (fun pod => labels.SelectorMatches annotations (Annotations pod)) pods.
Proof.
  induction pods as [| pod rest IH]; intros filteredList;
    cbn [annotation_loop List.filter].
  - now rewrite app_nil_r.
  - rewrite IH.
    destruct (labels.SelectorMatches annotations (Annotations pod));
      [now rewrite <- app_assoc | reflexivity].
Qed.

Lemma filterByAnnotations_filter pods annotations :
  filterByAnnotations pods annotations =
  List.filter (fun pod => labels.SelectorMatches annotations (Annotations pod)) pods.
Proof.
  unfold filterByAnnotations. destruct annotations as [| r rs]; cbn [labels.Empty].
  - cbn. induction pods as [| pod pods IH]; [reflexivity |].
    cbn [List.filter]. now rewrite <- IH.
  - apply annotation_loop_filter.
Qed.

Lemma requirement_loop_filter attr reqIncl reqExcl pods : forall filteredList,
  requirement_loop attr pods reqIncl reqExcl filteredList =
  filteredList
  ++ List.filter
       (fun pod =>
          exclude_loop reqExcl {[ attr pod := EmptyString ]}
            (include_loop reqIncl {[ attr pod := EmptyString ]}
               (Go.len reqIncl =? 0)))
       pods.
Proof.
  induction pods as [| pod rest IH]; intros filteredList;
    cbn [requirement_loop List.filter].
  - now rewrite app_nil_r.
  - rewrite IH.
    destruct (exclude_loop _ _ _); [now rewrite <- app_assoc | reflexivity].
Qed.

Lemma include_loop_existsb reqIncl selector included :
  include_loop reqIncl selector included =
  existsb (fun req => labels.Matches req selector) reqIncl || included.
Proof.
  induction reqIncl as [| req rest IH]; cbn [include_loop existsb]; [reflexivity |].
  destruct (labels.Matches req selector); [reflexivity | exact IH].
Qed.

Lemma exclude_loop_existsb reqExcl selector included :
  exclude_loop reqExcl selector included =
  negb (existsb (fun req => negb (labels.Matches req selector)) reqExcl) && included.
Proof.
  induction reqExcl as [| req rest IH]; cbn [exclude_loop existsb]; [reflexivity |].
  destruct (labels.Matches req selector); [exact IH | reflexivity].
Qed.

Lemma existsb_filter {A} (f g : A -> bool) l :
  existsb f (List.filter g l) = existsb (fun x => g x && f x) l.
Proof.
  induction l as [| x l IH]; [reflexivity |]. cbn [List.filter existsb].
  destruct (g x); cbn [existsb andb]; now rewrite IH.
Qed.

Lemma len_filter_zero {A} (g : A -> bool) l :
  (Go.len (List.filter g l) =? 0) = negb (existsb g l).
Proof.
  induction l as [| x l IH]; [reflexivity |]. cbn [List.filter existsb].
  destruct (g x); cbn [orb negb]; [| exact IH].
  apply Z.eqb_neq. unfold Go.len. cbn [length]. lia.
Qed.

Lemma Matches_exists r set :
  is_exists r = true -> labels.Matches r set = labels.Has set (labels.key r).
Proof.
  unfold is_exists, labels.Matches. now destruct (labels.operator r).
Qed.

Lemma Matches_does_not_exist r set :
  is_does_not_exist r = true ->
  negb (labels.Matches r set) = labels.Has set (labels.key r).
Proof.
  unfold is_does_not_exist, labels.Matches.
  destruct (labels.operator r); try discriminate.
  intros _. apply negb_involutive.
Qed.

Lemma existsb_ext_in {A} (f g : A -> bool) l :
  (forall x, x ∈ l -> f x = g x) -> existsb f l = existsb g l.
Proof.
  induction l as [| x l IH]; intros H; [reflexivity |]. cbn [existsb].
  rewrite (H x) by apply list_elem_of_here.
  rewrite IH; [reflexivity |]. intros y Hy. apply H. now apply list_elem_of_further.
Qed.

(** The splitting loop on an expression of supported requirements, and on one
    that has an unsupported requirement. *)
Lemma split_loop_supported reqs : forall reqIncl reqExcl,
  Forall supported reqs ->
  split_loop reqs reqIncl reqExcl =
  Ok (reqIncl ++ List.filter is_exists reqs,
      reqExcl ++ List.filter is_does_not_exist reqs).
Proof.
  induction reqs as [| req rest IH]; intros reqIncl reqExcl Hall;
    cbn [split_loop List.filter].
  - now rewrite !app_nil_r.
  - apply Forall_cons in Hall as [Hreq Hrest].
    unfold is_exists, is_does_not_exist.
    destruct Hreq as [-> | ->]; rewrite IH by exact Hrest;
      now rewrite <- app_assoc.
Qed.

Lemma split_loop_unsupported reqs : forall reqIncl reqExcl r,
  r ∈ reqs -> ~ supported r ->
  exists op,
    split_loop reqs reqIncl reqExcl = Err (ErrUnsupportedOperator op)
    /\ op <> selection.Exists /\ op <> selection.DoesNotExist.
Proof.
  induction reqs as [| req rest IH]; intros reqIncl reqExcl r Hin Hr.
  - inversion Hin.
  - cbn [split_loop].
    destruct (labels.operator req) eqn:Hop;
      try (eexists; split; [reflexivity | split; discriminate]).
    + apply elem_of_cons in Hin as [-> | Hin].
      * exfalso. apply Hr. right. exact Hop.
      * now apply (IH _ _ r).
    + apply elem_of_cons in Hin as [-> | Hin].
      * exfalso. apply Hr. left. exact Hop.
      * now apply (IH _ _ r).
Qed.

(** What the loop over the pods computes for one pod is [keeps]. *)
Lemma loops_keep expr set :
  exclude_loop (List.filter is_does_not_exist expr) set
    (include_loop (List.filter is_exists expr) set
       (Go.len (List.filter is_exists expr) =? 0))
  = keeps expr set.
Proof.
  rewrite exclude_loop_existsb, include_loop_existsb, len_filter_zero.
  rewrite !existsb_filter. unfold keeps.
  rewrite (existsb_ext_in
             (fun x => is_exists x && labels.Matches x set)
             (fun r => is_exists r && labels.Has set (labels.key r))).
  2:{ intros x _. destruct (is_exists x) eqn:E; [| reflexivity].
      cbn [andb]. now apply Matches_exists. }
  rewrite (existsb_ext_in
             (fun x => is_does_not_exist x && negb (labels.Matches x set))
             (fun r => is_does_not_exist r && labels.Has set (labels.key r))).
  2:{ intros x _. destruct (is_does_not_exist x) eqn:E; [| reflexivity].
      cbn [andb]. now apply Matches_does_not_exist. }
  rewrite andb_comm. f_equal. apply orb_comm.
Qed.

Lemma filter_ext {A} (f g : A -> bool) l :
  (forall x, f x = g x) -> List.filter f l = List.filter g l.
Proof.
  intros H. induction l as [| x l IH]; [reflexivity |].
  cbn [List.filter]. now rewrite H, IH.
Qed.

Lemma filter_true {A} (l : list A) : List.filter (fun _ => true) l = l.
Proof. induction l as [| x l IH]; [reflexivity |]. cbn. now rewrite IH. Qed.

(** The two requirement filters on an expression of supported requirements. *)
Lemma requirement_filter_supported attr pods expr :
  Forall supported expr ->
  (if labels.Empty expr then Ok pods
   else
     let* groups := split_loop expr [] [] in
     Ok (requirement_loop attr pods (fst groups) (snd groups) []))
  = Ok (List.filter (fun pod => keeps expr {[ attr pod := EmptyString ]}) pods).
Proof.
  intros Hall. destruct expr as [| r rs] eqn:E; cbn [labels.Empty].
  - now rewrite filter_true.
  - rewrite <- E in *. rewrite split_loop_supported by exact Hall.
    cbn [fst snd app]. rewrite requirement_loop_filter. cbn [app].
    f_equal. apply filter_ext. intros pod. apply loops_keep.
Qed.

(** ** The requirement filters *)

Lemma Has_singleton (k attr v : string) :
  labels.Has {[ attr := v ]} k = String.eqb k attr.
Proof.
  unfold labels.Has. destruct (String.eqb_spec k attr) as [-> | Hne].
  - now rewrite lookup_singleton_eq.
  - rewrite lookup_singleton_ne; [reflexivity | congruence].
Qed.

(** [keeps], read as a proposition. *)
Lemma keeps_iff expr set :
  keeps expr set = true <->
  ((forall r, r ∈ expr -> labels.operator r <> selection.Exists)
   \/ (exists r, r ∈ expr /\ labels.operator r = selection.Exists
                 /\ is_Some (set !! labels.key r)))
  /\ ~ (exists r, r ∈ expr /\ labels.operator r = selection.DoesNotExist
                  /\ is_Some (set !! labels.key r)).
Proof.
  assert (Hhas : forall k, labels.Has set k = true <-> is_Some (set !! k)).
  { intros k. unfold labels.Has. destruct (set !! k); split; eauto; try discriminate.
    intros [? ?]. discriminate. }
  assert (Hex : forall r, is_exists r = true <-> labels.operator r = selection.Exists).
  { intros r. unfold is_exists. destruct (labels.operator r); split; congruence. }
  assert (Hdne : forall r, is_does_not_exist r = true
                           <-> labels.operator r = selection.DoesNotExist).
  { intros r. unfold is_does_not_exist. destruct (labels.operator r); split; congruence. }
  unfold keeps. rewrite andb_true_iff, orb_true_iff, !negb_true_iff.
  rewrite <- !not_true_iff_false, !existsb_exists.
  split.
  - intros [Hincl Hexcl]. split.
    + destruct Hincl as [Hnone | (r & Hin & Hr)].
      * left. intros r Hin Hop. apply Hnone. exists r.
        split; [now apply list_elem_of_In | now apply Hex].
      * right. apply andb_true_iff in Hr as [H1 H2]. exists r.
        split; [now apply list_elem_of_In | split; [now apply Hex | now apply Hhas]].
    + intros (r & Hin & Hop & Hk). apply Hexcl. exists r.
      split; [now apply list_elem_of_In |].
      apply andb_true_iff. split; [now apply Hdne | now apply Hhas].
  - intros [Hincl Hexcl]. split.
    + destruct Hincl as [Hnone | (r & Hin & Hop & Hk)].
      * left. intros (r & Hin & Hr). apply (Hnone r); [now apply list_elem_of_In |].
        now apply Hex.
      * right. exists r. split; [now apply list_elem_of_In |].
        apply andb_true_iff. split; [now apply Hex | now apply Hhas].
    + intros (r & Hin & Hr). apply andb_true_iff in Hr as [H1 H2]. apply Hexcl.
      exists r. split; [now apply list_elem_of_In |].
      split; [now apply Hdne | now apply Hhas].
Qed.

(** C6: on an expression of [Exists] and [DoesNotExist] requirements the
    namespace filter and the phase filter return the pods that [keeps]
    keeps, [keeps] being evaluated on the single-key set of the pod's
    namespace or phase: no [Exists] requirement or one whose key is in the
    set, and no [DoesNotExist] requirement whose key is in the set.  The
    empty expression returns the pods as they are. *)
Theorem requirement_filters_keep pods expr :
  Forall supported expr ->
  filterByNamespaceSelector pods expr =
    Ok (List.filter (fun pod => keeps expr {[ Namespace pod := EmptyString ]}) pods)
  /\ filterByPhaseSelector pods expr =
    Ok (List.filter (fun pod => keeps expr {[ Phase pod := EmptyString ]}) pods)
  /\ filterByNamespaceSelector pods [] = Ok pods
  /\ filterByPhaseSelector pods [] = Ok pods.
Proof.
  intros Hall. repeat split.
  - apply (requirement_filter_supported Namespace pods expr Hall).
  - apply (requirement_filter_supported Phase pods expr Hall).
Qed.

Lemma requirement_filters_keep_witness :
  let pod ns name := mkPod ns name ∅ ∅ "Running" "" in
  filterByNamespaceSelector
    [pod "default" "a"; pod "kube-system" "b"; pod "default" "c"]
    [labels.mkRequirement "kube-system" selection.DoesNotExist []]
  = Ok [pod "default" "a"; pod "default" "c"].
Proof.
  intros pod.
  refine (eq_trans
            (proj1 (requirement_filters_keep
                      [pod "default" "a"; pod "kube-system" "b"; pod "default" "c"]
                      [labels.mkRequirement "kube-system" selection.DoesNotExist []]
                      _))
            _).
  - constructor; [right; reflexivity | constructor].
  - reflexivity.
Defined.

(** The annotation filter is handed a requirement of value equality: it
    returns, having kept the pod whose annotation has the value and dropped
    the other, where the namespace filter refuses the same expression. *)
Lemma filterByAnnotations_evaluates_equality :
  let expr := [labels.mkRequirement "team" selection.Equals ["a"]] in
  let pod name v := mkPod "default" name ∅ {[ "team" := v ]} "Running" "" in
  (exists r, r ∈ expr /\ ~ supported r)
  /\ filterByAnnotations [pod "p" "a"; pod "q" "b"] expr = [pod "p" "a"]
  /\ filterByNamespaceSelector [pod "p" "a"; pod "q" "b"] expr =
     Err (ErrUnsupportedOperator selection.Equals).
Proof.
  intros expr pod. split; [| split; reflexivity].
  eexists. split; [apply list_elem_of_here |].
  intros [H | H]; discriminate H.
Qed.

(** C7, as the code has it: a requirement whose operator is neither [Exists]
    nor [DoesNotExist] makes the namespace filter and the phase filter fail
    with the unsupported-operator error (of the first such requirement),
    whatever the pods; the annotation filter has no error to return and keeps
    the pods whose annotations the whole expression matches. *)
Theorem unsupported_operator_rejected pods expr r :
  r ∈ expr -> ~ supported r ->
  (exists op,
     filterByNamespaceSelector pods expr = Err (ErrUnsupportedOperator op)
     /\ op <> selection.Exists /\ op <> selection.DoesNotExist)
  /\ (exists op,
        filterByPhaseSelector pods expr = Err (ErrUnsupportedOperator op)
        /\ op <> selection.Exists /\ op <> selection.DoesNotExist)
  /\ filterByAnnotations pods expr =
     List.filter (fun pod => labels.SelectorMatches expr (Annotations pod)) pods.
Proof.
  intros Hin Hr.
  assert (Hne : labels.Empty expr = false).
  { destruct expr; [inversion Hin | reflexivity]. }
  destruct (split_loop_unsupported expr [] [] r Hin Hr) as (op & Hsplit & Hop).
  split; [| split].
  - exists op. unfold filterByNamespaceSelector. now rewrite Hne, Hsplit.
  - exists op. unfold filterByPhaseSelector. now rewrite Hne, Hsplit.
  - apply filterByAnnotations_filter.
Qed.

Lemma unsupported_operator_rejected_witness :
  exists op,
    filterByNamespaceSelector [mkPod "default" "p" ∅ ∅ "Running" ""]
      [labels.mkRequirement "default" selection.Exists [];
       labels.mkRequirement "tier" selection.In ["a"; "b"]]
    = Err (ErrUnsupportedOperator op)
    /\ op <> selection.Exists /\ op <> selection.DoesNotExist.
Proof.
  apply (unsupported_operator_rejected
           [mkPod "default" "p" ∅ ∅ "Running" ""]
           [labels.mkRequirement "default" selection.Exists [];
            labels.mkRequirement "tier" selection.In ["a"; "b"]]
           (labels.mkRequirement "tier" selection.In ["a"; "b"])).
  - apply list_elem_of_further, list_elem_of_here.
  - intros [H | H]; discriminate H.
Defined.

(** ** The node filter *)

(** C10: [filterPodByNode] puts each pod into its output once for every
    entry of the node list that carries the name of the pod's node, [k]
    times when there are [k] of them; its output need not be a sublist of
    its input, and [SelectPods] returns a pod twice when its node is
    resolved both by name and by the query on node labels. *)
Theorem filterPodByNode_repeats :
  (forall pods nodes,
     filterPodByNode pods nodes =
     flat_map (fun pod => replicate (hosts pod nodes) pod) pods)
  /\ (forall pod nodes k,
        hosts pod nodes = k -> (0 < k)%nat ->
        filterPodByNode [pod] nodes = replicate k pod)
  /\ (exists pods nodes, ~ sublist (filterPodByNode pods nodes) pods)
  /\ (let pod := mkPod "default" "p" ∅ ∅ "Running" "n1" in
      let node := mkNode "n1" {[ "zone" := "a" ]} in
      SelectPods literal_MatchString token_Parse key_LabelString
        (mkControllerCfg "" "") (cluster (fun _ _ => true) [pod] [node])
        (mkSelectorSpec ∅ ∅ ∅ ["n1"] {[ "zone" := "a" ]} [] ∅ [])
      = Ok [pod; pod]).
Proof.
  split; [| split; [| split]].
  - apply filterPodByNode_flat_map.
  - intros pod nodes k Hk _. rewrite filterPodByNode_flat_map.
    cbn [flat_map]. now rewrite app_nil_r, Hk.
  - exists [mkPod "default" "p" ∅ ∅ "Running" "n1"],
           [mkNode "n1" ∅; mkNode "n1" ∅].
    intros Hsub. apply sublist_length in Hsub.
    rewrite filterPodByNode_flat_map in Hsub. cbn in Hsub. lia.
  - reflexivity.
Qed.

Lemma filterPodByNode_repeats_witness :
  let pod := mkPod "default" "p" ∅ ∅ "Running" "n1" in
  filterPodByNode [pod] [mkNode "n1" ∅; mkNode "n2" ∅; mkNode "n1" ∅] =
  [pod; pod].
Proof.
  intros pod.
  apply (proj1 (proj2 filterPodByNode_repeats) pod
           [mkNode "n1" ∅; mkNode "n2" ∅; mkNode "n1" ∅] 2%nat);
    [reflexivity | lia].
Defined.

(** ** The explicit branch of SelectPods *)

Lemma names_loop_found c ns names : forall pods,
  (forall name, name ∈ names -> forall e, GetPod c ns name <> Failed e) ->
  names_loop c ns names pods = Ok (pods ++ flat_map (found c ns) names).
Proof.
  induction names as [| name rest IH]; intros pods Hok; cbn [names_loop flat_map].
  - now rewrite app_nil_r.
  - assert (Hrest : forall n, n ∈ rest -> forall e, GetPod c ns n <> Failed e).
    { intros n Hn. apply Hok. now apply list_elem_of_further. }
    unfold found at 1.
    destruct (GetPod c ns name) as [pod | | e] eqn:Hget.
    + rewrite IH by exact Hrest. now rewrite <- app_assoc.
    + now rewrite IH by exact Hrest.
    + exfalso. apply (Hok name (list_elem_of_here _ _) e). exact Hget.
Qed.

Lemma names_loop_failed c ns names : forall pods name e,
  name ∈ names -> GetPod c ns name = Failed e ->
  exists e', names_loop c ns names pods = Err (ErrClient e').
Proof.
  induction names as [| n rest IH]; intros pods name e Hin Hget.
  - inversion Hin.
  - cbn [names_loop]. apply elem_of_cons in Hin as [<- | Hin].
    + rewrite Hget. eauto.
    + destruct (GetPod c ns n); eauto.
Qed.

Lemma names_loop_error c ns names : forall pods e,
  names_loop c ns names pods = Err e -> exists e', e = ErrClient e'.
Proof.
  induction names as [| n rest IH]; intros pods e; cbn [names_loop].
  - discriminate.
  - destruct (GetPod c ns n); eauto.
    intros [= <-]. eauto.
Qed.

Lemma names_loop_ext c c' ns names : forall pods,
  (forall ns name, GetPod c' ns name = GetPod c ns name) ->
  names_loop c' ns names pods = names_loop c ns names pods.
Proof.
  intros pods Hget. revert pods.
  induction names as [| n rest IH]; intros pods; cbn [names_loop]; [reflexivity |].
  rewrite Hget. destruct (GetPod c ns n); auto.
Qed.

Lemma entries_loop_found c entries : forall pods,
  (forall ns names name,
     (ns, names) ∈ entries -> name ∈ names ->
     forall e, GetPod c ns name <> Failed e) ->
  entries_loop c entries pods =
  Ok (pods ++ flat_map (fun e => flat_map (found c (fst e)) (snd e)) entries).
Proof.
  induction entries as [| [ns names] rest IH]; intros pods Hok;
    cbn [entries_loop flat_map fst snd].
  - now rewrite app_nil_r.
  - rewrite names_loop_found.
    + rewrite IH; [now rewrite <- app_assoc |].
      intros ns' names' name Hin. apply Hok. now apply list_elem_of_further.
    + intros name Hin. apply (Hok ns names); [apply list_elem_of_here | exact Hin].
Qed.

Lemma entries_loop_failed c entries : forall pods ns names name e,
  (ns, names) ∈ entries -> name ∈ names -> GetPod c ns name = Failed e ->
  exists e', entries_loop c entries pods = Err (ErrClient e').
Proof.
  induction entries as [| [ns' names'] rest IH];
    intros pods ns names name e Hin Hname Hget.
  - inversion Hin.
  - cbn [entries_loop]. apply elem_of_cons in Hin as [Heq | Hin].
    + injection Heq as <- <-.
      destruct (names_loop_failed c ns names pods name e Hname Hget) as [e' ->].
      eauto.
    + destruct (names_loop c ns' names' pods) as [pods' | e0] eqn:Hloop.
      * now apply (IH pods' ns names name e).
      * destruct (names_loop_error _ _ _ _ _ Hloop) as [e' ->]. eauto.
Qed.

Lemma entries_loop_error c entries : forall pods e,
  entries_loop c entries pods = Err e -> exists e', e = ErrClient e'.
Proof.
  induction entries as [| [ns names] rest IH]; intros pods e; cbn [entries_loop].
  - discriminate.
  - destruct (names_loop c ns names pods) as [pods' | e0] eqn:Hloop.
    + apply IH.
    + intros [= <-]. now apply (names_loop_error _ _ _ _ _ Hloop).
Qed.

Lemma entries_loop_ext c c' entries : forall pods,
  (forall ns name, GetPod c' ns name = GetPod c ns name) ->
  entries_loop c' entries pods = entries_loop c entries pods.
Proof.
  intros pods Hget. revert pods.
  induction entries as [| [ns names] rest IH]; intros pods; cbn [entries_loop];
    [reflexivity |].
  rewrite (names_loop_ext c c' ns names pods Hget).
  destruct (names_loop c ns names pods); auto.
Qed.

Lemma size_pos_nonempty {A} (m : gmap string A) :
  (0 <? size m)%nat = true <-> m <> ∅.
Proof.
  rewrite Nat.ltb_lt. split.
  - intros H ->. rewrite map_size_empty in H. lia.
  - intros H. destruct (size m) eqn:E; [| lia].
    apply map_size_empty_inv in E. contradiction.
Qed.

Lemma SelectPods_listed MS Parse LS cfg c selector :
  Pods selector <> ∅ ->
  SelectPods MS Parse LS cfg c selector =
  entries_loop c (map_to_list (Pods selector)) [].
Proof.
  intros H. unfold SelectPods.
  apply size_pos_nonempty in H. now rewrite H.
Qed.

(** C1: with a non-empty [Pods] map, [SelectPods] returns the pods that the
    listed identities resolve to and nothing else enters the result: it is
    the same for every setting of the other fields of the selector, every
    namespace policy, every parser and every client that answers the [Get]
    of a pod alike; an identity that is not found is passed over, and a
    [Get] that fails otherwise fails the call. *)
Theorem SelectPods_explicit MatchString Parse LabelString cfg c selector :
  Pods selector <> ∅ ->
  (forall MatchString' Parse' LabelString' cfg' c' selector',
     Pods selector' = Pods selector ->
     (forall ns name, GetPod c' ns name = GetPod c ns name) ->
     SelectPods MatchString' Parse' LabelString' cfg' c' selector' =
     SelectPods MatchString Parse LabelString cfg c selector)
  /\ ((forall ns names name,
         Pods selector !! ns = Some names -> name ∈ names ->
         forall e, GetPod c ns name <> Failed e) ->
      SelectPods MatchString Parse LabelString cfg c selector =
      Ok (resolved c (Pods selector)))
  /\ (forall ns names name e,
        Pods selector !! ns = Some names -> name ∈ names ->
        GetPod c ns name = Failed e ->
        exists e', SelectPods MatchString Parse LabelString cfg c selector =
                   Err (ErrClient e')).
Proof.
  intros Hne. split; [| split].
  - intros MS' P' LS' cfg' c' selector' Hpods Hget.
    rewrite !SelectPods_listed by (rewrite ?Hpods; exact Hne).
    rewrite Hpods. now apply entries_loop_ext.
  - intros Hok. rewrite SelectPods_listed by exact Hne.
    rewrite entries_loop_found; [reflexivity |].
    intros ns names name Hin. apply Hok.
    now apply elem_of_map_to_list in Hin.
  - intros ns names name e Hlook Hname Hget.
    rewrite SelectPods_listed by exact Hne.
    apply (entries_loop_failed c _ [] ns names name e); [| exact Hname | exact Hget].
    now apply elem_of_map_to_list.
Qed.

Lemma SelectPods_explicit_witness :
  let pod := mkPod "default" "a" ∅ ∅ "Pending" "" in
  let c := cluster (fun _ _ => true) [pod] [] in
  let selector :=
    mkSelectorSpec {[ "default" := ["a"; "gone"] ]} {[ "app" := "web" ]} ∅ []
      ∅ ["!default"] {[ "owner" := "qa" ]} ["Running"] in
  SelectPods literal_MatchString token_Parse key_LabelString
    (mkControllerCfg "" "default") c selector = Ok [pod].
Proof.
  intros pod c selector.
  refine (eq_trans
            (proj1 (proj2 (SelectPods_explicit literal_MatchString token_Parse
                             key_LabelString (mkControllerCfg "" "default")
                             c selector _)) _) _).
  - intros H. apply (f_equal size) in H. vm_compute in H. discriminate H.
  - intros ns names name _ _ e. cbn [c cluster GetPod]. unfold find_pod.
    destruct (List.find _ _); discriminate.
  - reflexivity.
Defined.

(** ** The bulk branch of SelectPods and CheckPodMeetSelector *)

Lemma namespaces_loop_filter MS cfg pods : forall filteredList,
  namespaces_loop MS cfg pods filteredList =
  filteredList
  ++ List.filter (fun pod => IsAllowedNamespaces MS cfg (Namespace pod)) pods.
Proof.
  induction pods as [| pod rest IH]; intros filteredList;
    cbn [namespaces_loop List.filter].
  - now rewrite app_nil_r.
  - rewrite IH. destruct (IsAllowedNamespaces MS cfg (Namespace pod));
      [now rewrite <- app_assoc | reflexivity].
Qed.

Lemma filter_filter {A} (f g : A -> bool) l :
  List.filter f (List.filter g l) = List.filter (fun x => g x && f x) l.
Proof.
  induction l as [| x l IH]; [reflexivity |]. cbn [List.filter].
  destruct (g x); cbn [List.filter andb]; [destruct (f x) |]; now rewrite IH.
Qed.

Lemma requirement_filter_shape attr expr :
  stage_shape
    (fun pods =>
       if labels.Empty expr then Ok pods
       else
         let* groups := split_loop expr [] [] in
         Ok (requirement_loop attr pods (fst groups) (snd groups) [])).
Proof.
  destruct expr as [| r rs]; cbn [labels.Empty].
  - right. exists (fun _ => true). intros pods. now rewrite filter_true.
  - destruct (split_loop (r :: rs) [] []) as [groups | e] eqn:Hsplit.
    + right. eexists. intros pods. now rewrite requirement_loop_filter.
    + left. exists e. split; [| reflexivity].
      clear -Hsplit. revert Hsplit. generalize (@nil labels.Requirement) at 1.
      generalize (@nil labels.Requirement) at 1. generalize (r :: rs).
      intros reqs. induction reqs as [| req rest IH]; intros excl incl;
        cbn [split_loop]; [discriminate |].
      destruct (labels.operator req); try (intros [= <-]; exact I); apply IH.
Qed.

Lemma requirement_stages_shape Parse LS selector :
  stage_shape (requirement_stages Parse LS selector).
Proof.
  unfold requirement_stages, parseSelector.
  destruct (Parse (String.concat "," (Namespaces selector))) as [nsSel |];
    [| left; exists (ErrParse (String.concat "," (Namespaces selector)));
       split; [exact I | reflexivity]].
  destruct (requirement_filter_shape Namespace nsSel)
    as [(e & He & Hns) | (t1 & Hns)].
  { left. exists e. split; [exact He |]. intros pods.
    unfold filterByNamespaceSelector. now rewrite Hns. }
  destruct (Parse (LS (AnnotationSelectors selector))) as [annSel |].
  2:{ left. exists (ErrParse (LS (AnnotationSelectors selector))).
      split; [exact I |]. intros pods.
      unfold filterByNamespaceSelector. now rewrite Hns. }
  destruct (Parse (String.concat "," (PodPhaseSelectors selector))) as [phSel |].
  2:{ left. exists (ErrParse (String.concat "," (PodPhaseSelectors selector))).
      split; [exact I |]. intros pods.
      unfold filterByNamespaceSelector. now rewrite Hns. }
  destruct (requirement_filter_shape Phase phSel)
    as [(e & He & Hph) | (t3 & Hph)].
  - left. exists e. split; [exact He |]. intros pods.
    unfold filterByNamespaceSelector, filterByPhaseSelector.
    now rewrite Hns, Hph.
  - right. eexists. intros pods.
    unfold filterByNamespaceSelector, filterByPhaseSelector.
    rewrite Hns, filterByAnnotations_filter, Hph, !filter_filter. reflexivity.
Qed.

Lemma SelectPods_bulk MS Parse LS cfg c selector :
  Pods selector = ∅ -> Nodes selector = [] -> NodeSelectors selector = ∅ ->
  SelectPods MS Parse LS cfg c selector =
  match
    ListPods c
      (mkListOptions
         (if (0 <? size (LabelSelectors selector))%nat
          then Some (labels.SelectorFromSet (LabelSelectors selector))
          else None)
         (if (0 <? size (FieldSelectors selector))%nat
          then Some (FieldSelectors selector) else None))
  with
  | inl e => Err (ErrClient e)
  | inr items =>
      requirement_stages Parse LS selector
        (List.filter (fun pod => IsAllowedNamespaces MS cfg (Namespace pod)) items)
  end.
Proof.
  intros Hp Hn Hs. unfold SelectPods. rewrite Hp, Hn, Hs, !map_size_empty.
  cbv beta iota delta [Nat.ltb Nat.leb Go.len length Z.of_nat Z.ltb Z.compare orb app].
  destruct (ListPods c _) as [e | items]; [reflexivity |].
  unfold filterByNamespaces. rewrite namespaces_loop_filter. reflexivity.
Qed.

Lemma SelectorFromSet_no_labels ls :
  (0 <? size ls)%nat = true ->
  labels.SelectorMatches (labels.SelectorFromSet ls) ∅ = false.
Proof.
  intros H. apply Nat.ltb_lt in H.
  unfold labels.SelectorFromSet.
  rewrite <- length_map_to_list in H.
  destruct (map_to_list ls) as [| [k v] rest]; [cbn in H; lia |].
  cbn [map labels.SelectorMatches forallb].
  unfold labels.Matches at 1. cbn [labels.operator labels.key fst].
  unfold labels.Has. now rewrite lookup_empty.
Qed.

Lemma label_test (pod : Pod) (ls : gmap string string) :
  (0 <? size ls)%nat
  && ((size (Labels pod) =? 0)%nat
      || negb (labels.SelectorMatches (labels.SelectorFromSet ls) (Labels pod)))
  = negb (selects (if (0 <? size ls)%nat
                   then Some (labels.SelectorFromSet ls) else None)
            (Labels pod)).
Proof.
  destruct (0 <? size ls)%nat eqn:Hls; [| reflexivity].
  cbn [andb selects].
  destruct (size (Labels pod) =? 0)%nat eqn:Hsz; [| reflexivity].
  apply Nat.eqb_eq, map_size_empty_inv in Hsz. rewrite Hsz.
  now rewrite SelectorFromSet_no_labels.
Qed.

Lemma CheckPodMeetSelector_unlisted Parse LS pod selector :
  Pods selector = ∅ ->
  CheckPodMeetSelector Parse LS pod selector =
  if negb (selects (if (0 <? size (LabelSelectors selector))%nat
                    then Some (labels.SelectorFromSet (LabelSelectors selector))
                    else None)
             (Labels pod))
  then Ok false
  else
    match requirement_stages Parse LS selector [pod] with
    | Ok pods => if 0 <? Go.len pods then Ok true else Ok false
    | Err e => Err e
    end.
Proof.
  intros Hp. unfold CheckPodMeetSelector. rewrite Hp, map_size_empty.
  change (0 <? 0)%nat with false. cbv iota. rewrite label_test.
  destruct (negb _); [reflexivity |].
  unfold requirement_stages.
  destruct (parseSelector Parse (String.concat "," (Namespaces selector)));
    [| reflexivity].
  destruct (filterByNamespaceSelector [pod] a); [| reflexivity].
  destruct (parseSelector Parse (LS (AnnotationSelectors selector)));
    [| reflexivity].
  destruct (parseSelector Parse (String.concat "," (PodPhaseSelectors selector)));
    [| reflexivity].
  destruct (filterByPhaseSelector _ _); reflexivity.
Qed.

(** ** CheckPodMeetSelector against SelectPods *)

(** Two inputs on which the two disagree.  A listed pod without the labels
    the selector asks for is returned by [SelectPods] and refused by
    [CheckPodMeetSelector]; a pod of an ignored namespace is accepted by
    [CheckPodMeetSelector] and absent from what [SelectPods] returns. *)
Lemma CheckPodMeetSelector_disagrees :
  (let pod := mkPod "default" "a" ∅ ∅ "Running" "" in
   let selector :=
     mkSelectorSpec {[ "default" := ["a"] ]} {[ "app" := "web" ]} ∅ [] ∅ [] ∅ [] in
   let cfg := mkControllerCfg "" "" in
   pod ∈ [pod]
   /\ CheckPodMeetSelector token_Parse key_LabelString pod selector = Ok false
   /\ SelectPods literal_MatchString token_Parse key_LabelString cfg
        (cluster (fun _ _ => true) [pod] []) selector = Ok [pod])
  /\ (let pod := mkPod "kube-system" "dns" ∅ ∅ "Running" "" in
      let selector := mkSelectorSpec ∅ ∅ ∅ [] ∅ [] ∅ [] in
      let cfg := mkControllerCfg "" "kube-system" in
      pod ∈ [pod]
      /\ CheckPodMeetSelector token_Parse key_LabelString pod selector = Ok true
      /\ SelectPods literal_MatchString token_Parse key_LabelString cfg
           (cluster (fun _ _ => true) [pod] []) selector = Ok []).
Proof.
  split; intros pod selector cfg;
    (split; [apply list_elem_of_here | split; reflexivity]).
Qed.

(** C2, as the code has it: for a selector with an empty [Pods] map and
    without node and field constraints, and a pod of the cluster whose
    namespace the namespace policy allows, [CheckPodMeetSelector] answers
    true exactly when [SelectPods] on that cluster returns a list that has
    the pod. *)
Theorem CheckPodMeetSelector_agrees MatchString Parse LabelString cfg
    fieldMatches pool nodes pod selector :
  pod ∈ pool ->
  Pods selector = ∅ ->
  FieldSelectors selector = ∅ ->
  Nodes selector = [] ->
  NodeSelectors selector = ∅ ->
  IsAllowedNamespaces MatchString cfg (Namespace pod) = true ->
  CheckPodMeetSelector Parse LabelString pod selector = Ok true
  <-> exists out,
        SelectPods MatchString Parse LabelString cfg
          (cluster fieldMatches pool nodes) selector = Ok out
        /\ pod ∈ out.
Proof.
  intros Hpool Hp Hf Hn Hs Hallowed.
  rewrite CheckPodMeetSelector_unlisted by exact Hp.
  rewrite SelectPods_bulk by assumption.
  cbn [cluster ListPods LabelSelector FieldSelector].
  rewrite Hf, map_size_empty. change (0 <? 0)%nat with false. cbv iota.
  set (lsel := if (0 <? size (LabelSelectors selector))%nat
               then Some (labels.SelectorFromSet (LabelSelectors selector))
               else None).
  destruct (requirement_stages_shape Parse LabelString selector)
    as [(e & _ & Hstage) | (test & Hstage)]; rewrite !Hstage.
  - split.
    + destruct (negb (selects lsel (Labels pod))); discriminate.
    + intros (out & Hout & _). discriminate.
  - rewrite !filter_filter. split.
    + intros Hcheck. eexists. split; [reflexivity |].
      apply list_elem_of_In, filter_In. split; [now apply list_elem_of_In |].
      destruct (selects lsel (Labels pod)); [| discriminate].
      cbn [List.filter] in Hcheck. rewrite Hallowed.
      destruct (test pod); [reflexivity | discriminate].
    + intros (out & Heq & Hin). injection Heq as <-.
      apply list_elem_of_In, filter_In in Hin. destruct Hin as [_ Htest].
      rewrite !andb_true_iff in Htest. destruct Htest as [[Hl _] [_ Ht]].
      rewrite Hl. cbn [negb List.filter]. now rewrite Ht.
Qed.

Lemma CheckPodMeetSelector_agrees_witness :
  let pod := mkPod "default" "a" {[ "app" := "web" ]} ∅ "Running" "" in
  let other := mkPod "kube-system" "dns" {[ "app" := "web" ]} ∅ "Running" "" in
  let selector :=
    mkSelectorSpec ∅ {[ "app" := "web" ]} ∅ [] ∅ ["!kube-system"] ∅ ["Running"] in
  exists out,
    SelectPods literal_MatchString token_Parse key_LabelString
      (mkControllerCfg "" "") (cluster (fun _ _ => true) [other; pod] [])
      selector = Ok out
    /\ pod ∈ out.
Proof.
  intros pod other selector.
  apply (CheckPodMeetSelector_agrees literal_MatchString token_Parse
           key_LabelString (mkControllerCfg "" "") (fun _ _ => true)
           [other; pod] [] pod selector);
    [apply list_elem_of_further, list_elem_of_here
    | reflexivity | reflexivity | reflexivity | reflexivity | reflexivity
    | reflexivity].
Defined.

(** ** The explicit part of CheckPodMeetSelector *)

(** C3, at an input where the code departs from it: the [Pods] map lists
    one pod of the namespace [default], the pod that is checked lives in
    another namespace, and [CheckPodMeetSelector] answers true, while
    [SelectPods] on a cluster that has both pods returns the listed one
    only. *)
Theorem CheckPodMeetSelector_unlisted_namespace :
  let listed := mkPod "default" "a" ∅ ∅ "Running" "" in
  let pod := mkPod "other" "x" ∅ ∅ "Running" "" in
  let selector := mkSelectorSpec {[ "default" := ["a"] ]} ∅ ∅ [] ∅ [] ∅ [] in
  Pods selector <> ∅
  /\ Pods selector !! Namespace pod = None
  /\ CheckPodMeetSelector token_Parse key_LabelString pod selector = Ok true
  /\ SelectPods literal_MatchString token_Parse key_LabelString
       (mkControllerCfg "" "") (cluster (fun _ _ => true) [listed; pod] [])
       selector = Ok [listed].
Proof.
  intros listed pod selector. split; [| split; [| split]]; try reflexivity.
  intros H. apply (f_equal size) in H. vm_compute in H. discriminate H.
Qed.

Lemma meet_names_loop_not_listed pod names :
  Name pod ∉ names -> meet_names_loop pod names false = false.
Proof.
  induction names as [| name rest IH]; intros Hout; cbn [meet_names_loop];
    [reflexivity |].
  apply not_elem_of_cons in Hout as [Hne Hout].
  destruct (String.eqb_spec (Name pod) name); [contradiction | now apply IH].
Qed.

Lemma meet_entries_loop_not_listed pod names entries :
  (Namespace pod, names) ∈ entries ->
  (forall names', (Namespace pod, names') ∈ entries -> names' = names) ->
  Name pod ∉ names ->
  meet_entries_loop pod entries false = None.
Proof.
  intros Hin Huniq Hout.
  induction entries as [| [ns names'] rest IH]; [inversion Hin |].
  cbn [meet_entries_loop].
  destruct (String.eqb_spec (Namespace pod) ns) as [<- | Hne]; cbn [negb].
  - rewrite (Huniq names') by apply list_elem_of_here.
    now rewrite meet_names_loop_not_listed.
  - apply IH.
    + apply elem_of_cons in Hin as [Heq | Hin]; [congruence | exact Hin].
    + intros n Hn. apply Huniq. now apply list_elem_of_further.
Qed.

(** What the explicit part does refuse: a pod whose namespace is a key of
    the [Pods] map and whose name is not listed under it. *)
Lemma CheckPodMeetSelector_name_not_listed Parse LabelString pod selector names :
  Pods selector !! Namespace pod = Some names ->
  Name pod ∉ names ->
  CheckPodMeetSelector Parse LabelString pod selector = Ok false.
Proof.
  intros Hlook Hout. unfold CheckPodMeetSelector.
  assert (Hne : Pods selector <> ∅).
  { intros H. rewrite H, lookup_empty in Hlook. discriminate. }
  apply size_pos_nonempty in Hne. rewrite Hne.
  rewrite (meet_entries_loop_not_listed pod names); [reflexivity | | | exact Hout].
  - now apply elem_of_map_to_list.
  - intros names' Hin. apply elem_of_map_to_list in Hin. congruence.
Qed.

(** ** The empty pool *)

Lemma requirement_stages_error Parse LS selector pods e :
  requirement_stages Parse LS selector pods = Err e -> pipeline_error e.
Proof.
  destruct (requirement_stages_shape Parse LS selector)
    as [(e' & He' & Hstage) | (test & Hstage)]; rewrite Hstage.
  - now intros [= <-].
  - discriminate.
Qed.

Lemma SelectPods_error MS Parse LS cfg c selector e :
  SelectPods MS Parse LS cfg c selector = Err e -> pipeline_error e.
Proof.
  unfold SelectPods.
  destruct (0 <? size (Pods selector))%nat.
  - intros H. destruct (entries_loop_error _ _ _ _ H) as [e' ->]. exact I.
  - destruct (ListPods c _) as [e0 | items]; [intros [= <-]; exact I |].
    destruct ((0 <? Go.len (Nodes selector))
              || (0 <? size (NodeSelectors selector))%nat).
    + destruct (0 <? size (NodeSelectors selector))%nat.
      * destruct (ListNodes c _) as [e1 | nodeItems]; [intros [= <-]; exact I |].
        intros H. exact (requirement_stages_error Parse LS selector _ e H).
      * intros H. exact (requirement_stages_error Parse LS selector _ e H).
    + intros H. exact (requirement_stages_error Parse LS selector _ e H).
Qed.

(** C9: [filterPodsByMode] on the empty list fails with its empty-list error
    for every mode and value and without a draw; [SelectPods] never returns
    that error nor the one of [SelectAndFilterPods], and can return the
    empty list; and when it does (no mock point being set),
    [SelectAndFilterPods] fails with "no pod is selected", again for every
    mode and value. *)
Theorem empty_pool_error :
  (forall mode value r fuel,
     filterPodsByMode [] mode value r fuel = Done (Err ErrEmptyList, r))
  /\ (forall MatchString Parse LabelString cfg c selector e,
        SelectPods MatchString Parse LabelString cfg c selector = Err e ->
        e <> ErrEmptyList /\ e <> ErrNoPodSelected)
  /\ SelectPods literal_MatchString token_Parse key_LabelString
       (mkControllerCfg "" "") (cluster (fun _ _ => true) [] [])
       (mkSelectorSpec ∅ {[ "app" := "web" ]} ∅ [] ∅ [] ∅ []) = Ok []
  /\ (forall MatchString Parse LabelString mock cfg c selector mode value r fuel,
        MockSelectAndFilterPods mock = None ->
        MockSelectedAndFilterPodsError mock = None ->
        SelectPods MatchString Parse LabelString cfg c selector = Ok [] ->
        SelectAndFilterPods MatchString Parse LabelString mock cfg c selector
          mode value r fuel = Done (Err ErrNoPodSelected, r)).
Proof.
  split; [| split; [| split]].
  - reflexivity.
  - intros MS Parse LS cfg c selector e H.
    apply SelectPods_error in H.
    split; intros ->; exact H.
  - reflexivity.
  - intros MS Parse LS mock cfg c selector mode value r fuel Hm1 Hm2 Hsel.
    unfold SelectAndFilterPods. now rewrite Hm1, Hm2, Hsel.
Qed.

Lemma empty_pool_error_witness :
  SelectAndFilterPods literal_MatchString token_Parse key_LabelString
    (mkMockPoints None None) (mkControllerCfg "" "")
    (cluster (fun _ _ => true) [] [])
    (mkSelectorSpec ∅ {[ "app" := "web" ]} ∅ [] ∅ [] ∅ [])
    AllPodMode "" counting 0 = Done (Err ErrNoPodSelected, counting).
Proof.
  apply (proj2 (proj2 (proj2 empty_pool_error)));
    [reflexivity | reflexivity | reflexivity].
Defined.

(** ** The sampler *)

Lemma omap_submseteq {A B} (f : A -> option B) (l k : list A) :
  l ⊆+ k -> omap f l ⊆+ omap f k.
Proof.
  induction 1 as [| x l k _ IH | x y l | x l k _ IH | l k j _ IH1 _ IH2];
    cbn [omap list_omap].
  - constructor.
  - destruct (f x); [now constructor | exact IH].
  - destruct (f x), (f y); try reflexivity. apply submseteq_swap.
  - destruct (f x); [now apply submseteq_cons | exact IH].
  - now transitivity (omap f k).
Qed.

(** Reading a list at each of its positions in turn gives the list. *)
Lemma omap_lookup_positions {A} (pods : list A) : forall pre : list A,
  omap (fun i : Z => (pre ++ pods) !! Z.to_nat i)
    (map (fun k : nat => 0 + Z.of_nat k) (seq (length pre) (length pods)))
  = pods.
Proof.
  induction pods as [| x rest IH]; intros pre; [reflexivity |].
  cbn [length seq map omap list_omap].
  replace (Z.to_nat (0 + Z.of_nat (length pre))) with (length pre) by lia.
  rewrite list_lookup_middle by reflexivity. f_equal.
  specialize (IH (pre ++ [x])).
  rewrite <- app_assoc, length_app in IH. cbn [app length] in IH.
  replace (length pre + 1)%nat with (S (length pre)) in IH by lia.
  exact IH.
Qed.

Lemma omap_lookup_range {A} (pods : list A) :
  omap (fun i : Z => pods !! Z.to_nat i) (range_indexes 0 (Go.len pods)) = pods.
Proof.
  unfold range_indexes, Go.len.
  replace (Z.to_nat (Z.of_nat (length pods) - 0)) with (length pods) by lia.
  exact (omap_lookup_positions pods []).
Qed.

(** The loop over the indexes reads the list at each index. *)
Lemma index_loop_in_range pods indexes : forall filteredPods,
  (forall x, x ∈ indexes -> 0 <= x < Go.len pods) ->
  index_loop pods indexes filteredPods =
    Done (filteredPods ++ omap (fun i : Z => pods !! Z.to_nat i) indexes)
  /\ Go.len (omap (fun i : Z => pods !! Z.to_nat i) indexes) = Go.len indexes.
Proof.
  induction indexes as [| index rest IH]; intros filteredPods Hrange;
    cbn [index_loop omap list_omap].
  - now rewrite app_nil_r.
  - assert (Hi : 0 <= index < Go.len pods) by apply Hrange, list_elem_of_here.
    destruct (pods !! Z.to_nat index) as [pod |] eqn:Hlook.
    + destruct (IH (filteredPods ++ [pod])) as [Hrun Hlen].
      { intros x Hx. apply Hrange. now apply list_elem_of_further. }
      split.
      * rewrite Hrun. now rewrite <- app_assoc.
      * unfold Go.len in *. cbn [length]. lia.
    + exfalso. apply lookup_ge_None in Hlook. unfold Go.len in Hi. lia.
Qed.

(** [getFixedSubListFromPodList] with a number of pods between 0 and the
    size of the list: that many pods, taken from distinct positions. *)
Lemma getFixedSubListFromPodList_sound pods num r fuel :
  Go.len pods <= Go.MaxInt -> 0 <= num <= Go.len pods ->
  match getFixedSubListFromPodList pods num r fuel with
  | Done (out, _) => Go.len out = num /\ out ⊆+ pods
  | Panic => False
  | OutOfFuel => True
  end.
Proof.
  intros Hmax Hnum. unfold getFixedSubListFromPodList.
  pose proof (len_nonneg pods) as H0.
  assert (Hw : Go.len pods < Go.word) by (rewrite MaxInt_eq in Hmax; rewrite word_eq; lia).
  rewrite !to_uint_small by (unfold Go.is_uint; lia).
  pose proof (RandomFixedIndexes_sound (Go.len pods) num r fuel Hnum Hmax)
    as Hsound.
  destruct (RandomFixedIndexes 0 (Go.len pods) num r fuel) as [[l r'] | |];
    cbn [bind fst snd]; [| exact Hsound | exact I].
  destruct Hsound as (Hlen & Hnd & Hrange).
  destruct (index_loop_in_range pods l [] Hrange) as [-> Hout].
  cbn [bind app]. split; [lia |].
  assert (Hsub : l ⊆+ range_indexes 0 (Go.len pods)).
  { apply NoDup_submseteq; [exact Hnd |].
    intros x Hx. apply range_indexes_elem. now apply Hrange. }
  apply (omap_submseteq (fun i : Z => pods !! Z.to_nat i)) in Hsub.
  now rewrite omap_lookup_range in Hsub.
Qed.

Lemma getFixedSubListFromPodList_returns pods num r :
  Go.len pods <= Go.MaxInt -> 0 <= num <= Go.len pods ->
  fair (Go.len pods) r ->
  exists fuel out r', getFixedSubListFromPodList pods num r fuel = Done (out, r').
Proof.
  intros Hmax Hnum Hfair.
  pose proof (len_nonneg pods) as H0.
  assert (Hw : Go.len pods < Go.word) by (rewrite MaxInt_eq in Hmax; rewrite word_eq; lia).
  destruct (RandomFixedIndexes_returns (Go.len pods) num r Hnum Hmax Hfair)
    as (fuel & l & r' & Hrun).
  pose proof (RandomFixedIndexes_sound (Go.len pods) num r fuel Hnum Hmax)
    as Hsound.
  rewrite Hrun in Hsound.
  destruct Hsound as (_ & _ & Hrange).
  destruct (index_loop_in_range pods l [] Hrange) as [Hloop _].
  eexists fuel, _, r'. unfold getFixedSubListFromPodList.
  rewrite !to_uint_small by (unfold Go.is_uint; lia).
  rewrite Hrun. cbn [bind fst snd]. rewrite Hloop. reflexivity.
Qed.

Lemma percent_of_bounds n p :
  0 <= n -> 0 < p <= 100 -> 0 <= percent_of n p <= n.
Proof.
  intros Hn Hp. unfold percent_of. split.
  - apply Z.div_pos; nia.
  - apply Z.div_le_upper_bound; nia.
Qed.

(** The branch of [filterPodsByMode] that the mode [FixedPercentPodMode]
    takes on a list that is not empty. *)
Lemma filterPodsByMode_fixed_percent_branch pods value r fuel :
  pods <> [] ->
  filterPodsByMode pods FixedPercentPodMode value r fuel =
  match strconv.Atoi value with
  | None => Done (Err (ErrAtoi value), r)
  | Some percentage =>
      if percentage =? 0 then Done (Err ErrValueLE0, r)
      else if (percentage <? 0) || (100 <? percentage) then
        Done (Err (ErrFixedPercentInvalid percentage), r)
      else
        bind (getFixedSubListFromPodList pods
                (percent_of (Go.len pods) percentage) r fuel)
          (fun pr => Done (Ok (fst pr), snd pr))
  end.
Proof.
  intros Hne. unfold filterPodsByMode.
  destruct (Z.eqb_spec (Go.len pods) 0) as [H | _]; [| reflexivity].
  destruct pods; [contradiction | unfold Go.len in H; cbn [length] in H; lia].
Qed.

(** C8: in the mode [FixedPercentPodMode], on a list of pods that is not
    empty, [filterPodsByMode] returns an error exactly when the value is not
    an integer, is 0, or is outside (0, 100]; for a percentage [p] of
    (0, 100] it does not panic, what it returns is [len(pods) * p / 100]
    (rounded down) pods taken from distinct positions of the list, all of
    them when [p] is 100, and on a fair source it returns. *)
Theorem filterPodsByMode_fixed_percent pods value r :
  pods <> [] -> Go.len pods <= float_exact_len ->
  (forall fuel,
     (exists e r',
        filterPodsByMode pods FixedPercentPodMode value r fuel = Done (Err e, r'))
     <-> (strconv.Atoi value = None
          \/ exists p, strconv.Atoi value = Some p /\ (p = 0 \/ p < 0 \/ 100 < p)))
  /\ (forall p,
        strconv.Atoi value = Some p -> 0 < p <= 100 ->
        (forall fuel,
           match filterPodsByMode pods FixedPercentPodMode value r fuel with
           | Done (Ok out, _) =>
               Go.len out = Go.len pods * p / 100
               /\ out ⊆+ pods
               /\ (p = 100 -> out ≡ₚ pods)
           | Done (Err _, _) => False
           | Panic => False
           | OutOfFuel => True
           end)
        /\ (fair (Go.len pods) r ->
            exists fuel out r',
              filterPodsByMode pods FixedPercentPodMode value r fuel =
              Done (Ok out, r'))).
Proof.
  intros Hne Hlen.
  assert (Hmax : Go.len pods <= Go.MaxInt).
  { rewrite MaxInt_eq. unfold float_exact_len in Hlen. lia. }
  pose proof (len_nonneg pods) as H0.
  split.
  - intros fuel. rewrite filterPodsByMode_fixed_percent_branch by exact Hne.
    destruct (strconv.Atoi value) as [p |].
    + destruct (Z.eqb_spec p 0) as [Hz | Hnz].
      { split; [intros _; right; exists p; auto | eauto]. }
      destruct (Z.ltb_spec p 0) as [Hneg | Hpos]; cbn [orb].
      { split; [intros _; right; exists p; auto | eauto]. }
      destruct (Z.ltb_spec 100 p) as [Hbig | Hle].
      { split; [intros _; right; exists p; auto | eauto]. }
      split.
      * intros (e & r' & Hrun).
        destruct (getFixedSubListFromPodList pods _ r fuel) as [[out r2] | |];
          discriminate Hrun.
      * intros [Hnone | (q & [= <-] & Hq)]; [discriminate | lia].
    + split; [intros _; now left | eauto].
  - intros p Hp Hrange. split.
    + intros fuel. rewrite filterPodsByMode_fixed_percent_branch by exact Hne.
      rewrite Hp.
      destruct (Z.eqb_spec p 0); [lia |].
      destruct (Z.ltb_spec p 0); [lia |].
      destruct (Z.ltb_spec 100 p); [lia |]. cbn [orb].
      pose proof (getFixedSubListFromPodList_sound pods
                    (percent_of (Go.len pods) p) r fuel Hmax
                    (percent_of_bounds _ _ H0 Hrange)) as Hsound.
      destruct (getFixedSubListFromPodList pods _ r fuel) as [[out r2] | |];
        cbn [bind fst snd]; try exact Hsound.
      destruct Hsound as [Hcount Hsub]. unfold percent_of in Hcount.
      split; [exact Hcount | split; [exact Hsub |]].
      intros ->. apply submseteq_length_Permutation; [exact Hsub |].
      rewrite Z.div_mul in Hcount by lia. unfold Go.len in Hcount. lia.
    + intros Hfair.
      destruct (getFixedSubListFromPodList_returns pods
                  (percent_of (Go.len pods) p) r Hmax
                  (percent_of_bounds _ _ H0 Hrange) Hfair)
        as (fuel & out & r' & Hrun).
      exists fuel, out, r'.
      rewrite filterPodsByMode_fixed_percent_branch by exact Hne.
      rewrite Hp.
      destruct (Z.eqb_spec p 0); [lia |].
      destruct (Z.ltb_spec p 0); [lia |].
      destruct (Z.ltb_spec 100 p); [lia |]. cbn [orb].
      now rewrite Hrun.
Qed.

Lemma filterPodsByMode_fixed_percent_witness :
  match filterPodsByMode (numbered 7) FixedPercentPodMode "50" counting 7 with
  | Done (Ok out, _) =>
      Go.len out = Go.len (numbered 7) * 50 / 100
      /\ out ⊆+ numbered 7
      /\ (50 = 100 -> out ≡ₚ numbered 7)
  | Done (Err _, _) => False
  | Panic => False
  | OutOfFuel => True
  end.
Proof.
  refine (proj1 (proj2 (filterPodsByMode_fixed_percent (numbered 7) "50"
                          counting _ _) 50 _ _) 7%nat).
  - discriminate.
  - unfold float_exact_len, Go.len. cbn [numbered length map seq]. lia.
  - reflexivity.
  - lia.
Defined.

(** The worked cases of the design document, on the source that draws 0, 1,
    2, ...: 100 percent of 7 pods is the 7 pods, 50 percent of 7 is 3 pods,
    and 1 percent of 7 is no pod and no error. *)
Lemma fixed_percent_worked_cases :
  (exists out r',
     filterPodsByMode (numbered 7) FixedPercentPodMode "100" counting 7 =
     Done (Ok out, r') /\ Go.len out = 7)
  /\ (exists out r',
        filterPodsByMode (numbered 7) FixedPercentPodMode "50" counting 7 =
        Done (Ok out, r') /\ Go.len out = 3)
  /\ (exists r',
        filterPodsByMode (numbered 7) FixedPercentPodMode "1" counting 7 =
        Done (Ok [], r'))
  /\ filterPodsByMode (numbered 7) FixedPercentPodMode "0" counting 7 =
     Done (Err ErrValueLE0, counting)
  /\ filterPodsByMode (numbered 7) FixedPercentPodMode "101" counting 7 =
     Done (Err (ErrFixedPercentInvalid 101), counting)
  /\ filterPodsByMode (numbered 7) FixedPercentPodMode "half" counting 7 =
     Done (Err (ErrAtoi "half"), counting).
Proof.
  split; [| split; [| split; [| split; [| split]]]].
  - do 2 eexists. split; reflexivity.
  - do 2 eexists. split; reflexivity.
  - eexists. reflexivity.
  - reflexivity.
  - reflexivity.
  - reflexivity.
Qed.

(** * Further properties *)

(** ** RandomFixedIndexes on any range *)

Lemma to_int_big x : Go.MaxInt < x < Go.word -> Go.to_int x = x - Go.word.
Proof.
  unfold Go.to_int, Go.word, Go.MaxInt. intros H.
  replace (x + 2 ^ 63) with ((x - 2 ^ 63) + 1 * 2 ^ 64) by lia.
  rewrite Z_mod_plus_full, Z.mod_small by lia. lia.
Qed.

(** X1: on a range [[start, end)] whose width fits [int], with [count] at
    most the width, [RandomFixedIndexes] does not panic and what it returns
    is [count] pairwise distinct indexes of the range; on a fair source it
    returns. *)
Theorem RandomFixedIndexes_window start end_ count r :
  0 <= start <= end_ -> end_ < Go.word -> end_ - start <= Go.MaxInt ->
  0 <= count <= end_ - start ->
  (forall fuel,
     match RandomFixedIndexes start end_ count r fuel with
     | Done (l, _) =>
         Go.len l = count /\ NoDup l /\ (forall x, x ∈ l -> start <= x < end_)
     | Panic => False
     | OutOfFuel => True
     end)
  /\ (fair (end_ - start) r ->
      exists fuel l r', RandomFixedIndexes start end_ count r fuel = Done (l, r')).
Proof.
  intros Hs He Hw Hc. split.
  - intros fuel. rewrite RandomFixedIndexes_draw by lia.
    apply draw_sound; [lia | lia | lia | lia | lia | apply draw_inv_init].
  - intros Hfair.
    destruct (draw_terminates start end_ count Hs He Hw Hc
                (Z.to_nat (count - 0)) 0 ∅ [] r eq_refl ltac:(lia)
                (draw_inv_init start end_) Hfair) as (fuel & l & r' & Hrun).
    exists fuel, l, r'. rewrite RandomFixedIndexes_draw by lia. exact Hrun.
Qed.

Lemma RandomFixedIndexes_window_witness :
  exists fuel l r', RandomFixedIndexes 10 15 2 counting fuel = Done (l, r').
Proof.
  apply (RandomFixedIndexes_window 10 15 2 counting);
    [lia | rewrite word_eq; lia | rewrite MaxInt_eq; lia | lia
    | apply fair_counting; lia].
Defined.

(** X2: on a range wider than [int] holds, with [count] at most the width:
    a [count] of 0 or beyond [int] gives the empty result at once, and any
    other [count] panics in [rand.Intn] at the first turn of the loop. *)
Theorem RandomFixedIndexes_beyond_int start end_ count r fuel :
  0 <= start -> end_ < Go.word -> Go.MaxInt < end_ - start ->
  0 <= count <= end_ - start ->
  (count = 0 \/ Go.MaxInt < count ->
   RandomFixedIndexes start end_ count r fuel = Done ([], r))
  /\ (0 < count <= Go.MaxInt ->
      RandomFixedIndexes start end_ count r (S fuel) = Panic).
Proof.
  intros Hs He Hw Hc.
  assert (HM := MaxInt_eq). assert (HW := word_eq).
  assert (Hwide : Go.to_int (Go.usub end_ start) <= 0).
  { rewrite usub_small by lia. rewrite to_int_big by lia. lia. }
  split.
  - intros Hcount. rewrite RandomFixedIndexes_draw by lia.
    assert (Hi : Go.to_int count <= 0).
    { destruct Hcount as [-> | Hbig]; [reflexivity |].
      rewrite to_int_big by lia. lia. }
    destruct fuel; cbn [draw];
      destruct (Z.ltb_spec 0 (Go.to_int count)); (lia || reflexivity).
  - intros Hcount. rewrite RandomFixedIndexes_draw by lia.
    cbn [draw]. rewrite (to_int_small count) by lia.
    destruct (Z.ltb_spec 0 count); [| lia].
    unfold Intn. destruct (Z.leb_spec (Go.to_int (Go.usub end_ start)) 0);
      [reflexivity | lia].
Qed.

Lemma RandomFixedIndexes_beyond_int_witness :
  RandomFixedIndexes 0 (2 ^ 64 - 1) 1 counting 1 = Panic.
Proof.
  apply (RandomFixedIndexes_beyond_int 0 (2 ^ 64 - 1) 1 counting 0);
    [lia | rewrite word_eq; lia | rewrite MaxInt_eq; lia | lia
    | rewrite MaxInt_eq; lia].
Defined.

(** ** getFixedSubListFromPodList outside its callers' range *)

(** X3: asked for more pods than the list has, or for a negative number of
    them (which [uint(num)] turns into a large one), the function returns the
    list itself, in order and without a draw. *)
Theorem getFixedSubListFromPodList_whole pods num r fuel :
  Go.len pods <= Go.MaxInt ->
  Go.len pods < num <= Go.MaxInt \/ - 2 ^ 63 <= num < 0 ->
  getFixedSubListFromPodList pods num r fuel = Done (pods, r).
Proof.
  intros Hmax Hnum.
  assert (HM := MaxInt_eq). assert (HW := word_eq).
  pose proof (len_nonneg pods) as H0.
  unfold getFixedSubListFromPodList.
  rewrite (to_uint_small (Go.len pods)) by (unfold Go.is_uint; lia).
  assert (Hbig : Go.len pods - 0 < Go.to_uint num).
  { destruct Hnum as [Hmore | Hneg].
    - rewrite to_uint_small by (unfold Go.is_uint; lia). lia.
    - unfold Go.to_uint.
      replace num with ((num + Go.word) + (-1) * Go.word) by lia.
      rewrite Z_mod_plus_full, Z.mod_small by lia. lia. }
  rewrite RandomFixedIndexes_all by lia. cbn [bind fst snd].
  destruct (index_loop_in_range pods (range_indexes 0 (Go.len pods)) [])
    as [-> _].
  { intros x Hx. now apply range_indexes_elem in Hx. }
  cbn [bind app]. now rewrite omap_lookup_range.
Qed.

Lemma getFixedSubListFromPodList_whole_witness :
  getFixedSubListFromPodList (numbered 3) (-1) counting 0 =
  Done (numbered 3, counting).
Proof.
  apply (getFixedSubListFromPodList_whole (numbered 3) (-1) counting 0);
    [rewrite MaxInt_eq; unfold Go.len; cbn [numbered length map seq]; lia
    | right; lia].
Defined.

(** ** The other modes of the sampler *)

(** What the three counted modes end with. *)
Lemma counted_sample_sound pods num r fuel :
  Go.len pods <= Go.MaxInt -> 0 <= num <= Go.len pods ->
  match
    bind (getFixedSubListFromPodList pods num r fuel)
      (fun pr => Done (@Ok (list Pod) (fst pr), snd pr))
  with
  | Done (Ok out, _) => Go.len out = num /\ out ⊆+ pods
  | Done (Err _, _) => False
  | Panic => False
  | OutOfFuel => True
  end.
Proof.
  intros Hmax Hnum.
  pose proof (getFixedSubListFromPodList_sound pods num r fuel Hmax Hnum) as H.
  destruct (getFixedSubListFromPodList pods num r fuel) as [[out r'] | |];
    exact H.
Qed.

Lemma counted_sample_returns pods num r :
  Go.len pods <= Go.MaxInt -> 0 <= num <= Go.len pods ->
  fair (Go.len pods) r ->
  exists fuel out r',
    bind (getFixedSubListFromPodList pods num r fuel)
      (fun pr => Done (@Ok (list Pod) (fst pr), snd pr))
    = Done (Ok out, r').
Proof.
  intros Hmax Hnum Hfair.
  destruct (getFixedSubListFromPodList_returns pods num r Hmax Hnum Hfair)
    as (fuel & out & r' & Hrun).
  exists fuel, out, r'. now rewrite Hrun.
Qed.

Lemma len_pos_nonempty {A} (l : list A) : l <> [] -> 0 < Go.len l.
Proof. destruct l; [contradiction |]. unfold Go.len. cbn [length]. lia. Qed.

Lemma len_eqb_nonempty {A} (l : list A) : l <> [] -> (Go.len l =? 0) = false.
Proof.
  intros H. apply Z.eqb_neq. pose proof (len_pos_nonempty l H). lia.
Qed.

Lemma percent_of_bounds0 n p :
  0 <= n -> 0 <= p <= 100 -> 0 <= percent_of n p <= n.
Proof.
  intros Hn Hp. unfold percent_of. split.
  - apply Z.div_pos; nia.
  - apply Z.div_le_upper_bound; nia.
Qed.

Lemma filterPodsByMode_fixed_branch pods value r fuel :
  pods <> [] ->
  filterPodsByMode pods FixedPodMode value r fuel =
  match strconv.Atoi value with
  | None => Done (Err (ErrAtoi value), r)
  | Some num =>
      let num := if Go.len pods <? num then Go.len pods else num in
      if num <=? 0 then Done (Err ErrValueLE0, r)
      else
        bind (getFixedSubListFromPodList pods num r fuel)
          (fun pr => Done (Ok (fst pr), snd pr))
  end.
Proof.
  intros Hne. unfold filterPodsByMode.
  now rewrite (len_eqb_nonempty pods Hne).
Qed.

(** X4: in the mode [FixedPodMode], on a list of pods that is not empty,
    [filterPodsByMode] returns an error exactly when the value is not an
    integer or is 0 or less; for a value [n] above 0 it does not panic and
    returns the smaller of [n] and [len(pods)] pods, taken from distinct
    positions of the list (all of them when [n] is at least [len(pods)]),
    and on a fair source it returns. *)
Theorem filterPodsByMode_fixed pods value r :
  pods <> [] -> Go.len pods <= Go.MaxInt ->
  (forall fuel,
     (exists e r',
        filterPodsByMode pods FixedPodMode value r fuel = Done (Err e, r'))
     <-> (strconv.Atoi value = None
          \/ exists n, strconv.Atoi value = Some n /\ n <= 0))
  /\ (forall n,
        strconv.Atoi value = Some n -> 0 < n ->
        (forall fuel,
           match filterPodsByMode pods FixedPodMode value r fuel with
           | Done (Ok out, _) =>
               Go.len out = Z.min n (Go.len pods)
               /\ out ⊆+ pods
               /\ (Go.len pods <= n -> out ≡ₚ pods)
           | Done (Err _, _) => False
           | Panic => False
           | OutOfFuel => True
           end)
        /\ (fair (Go.len pods) r ->
            exists fuel out r',
              filterPodsByMode pods FixedPodMode value r fuel =
              Done (Ok out, r'))).
Proof.
  intros Hne Hmax. pose proof (len_pos_nonempty pods Hne) as Hpos.
  split.
  - intros fuel. rewrite filterPodsByMode_fixed_branch by exact Hne.
    destruct (strconv.Atoi value) as [n |]; cbv zeta.
    + destruct (Z.ltb_spec (Go.len pods) n) as [Hlt | Hge].
      * destruct (Z.leb_spec (Go.len pods) 0); [lia |]. split.
        -- intros (e & r' & Hrun).
           destruct (getFixedSubListFromPodList pods _ r fuel) as [[out r2] | |];
             discriminate Hrun.
        -- intros [Hnone | (q & [= <-] & Hq)]; [discriminate | lia].
      * destruct (Z.leb_spec n 0) as [Hle | Hgt].
        -- split; [intros _; right; exists n; auto | eauto].
        -- split.
           ++ intros (e & r' & Hrun).
              destruct (getFixedSubListFromPodList pods _ r fuel)
                as [[out r2] | |]; discriminate Hrun.
           ++ intros [Hnone | (q & [= <-] & Hq)]; [discriminate | lia].
    + split; [intros _; now left | eauto].
  - intros n Hn Hn0.
    assert (Hclamp : (if Go.len pods <? n then Go.len pods else n)
                     = Z.min n (Go.len pods)).
    { destruct (Z.ltb_spec (Go.len pods) n); lia. }
    split.
    + intros fuel. rewrite filterPodsByMode_fixed_branch by exact Hne.
      rewrite Hn. cbv zeta. rewrite Hclamp.
      destruct (Z.leb_spec (Z.min n (Go.len pods)) 0); [lia |].
      pose proof (counted_sample_sound pods (Z.min n (Go.len pods)) r fuel
                    Hmax ltac:(lia)) as Hsound.
      destruct (bind _ _) as [[[out | e] r2] | |]; try exact Hsound.
      destruct Hsound as [Hcount Hsub].
      split; [exact Hcount | split; [exact Hsub |]].
      intros Hall. apply submseteq_length_Permutation; [exact Hsub |].
      unfold Go.len in *. lia.
    + intros Hfair.
      destruct (counted_sample_returns pods (Z.min n (Go.len pods)) r
                  Hmax ltac:(lia) Hfair) as (fuel & out & r' & Hrun).
      exists fuel, out, r'.
      rewrite filterPodsByMode_fixed_branch by exact Hne.
      rewrite Hn. cbv zeta. rewrite Hclamp.
      destruct (Z.leb_spec (Z.min n (Go.len pods)) 0); [lia | exact Hrun].
Qed.

Lemma filterPodsByMode_fixed_witness :
  match filterPodsByMode (numbered 5) FixedPodMode "9" counting 5 with
  | Done (Ok out, _) =>
      Go.len out = Z.min 9 (Go.len (numbered 5))
      /\ out ⊆+ numbered 5
      /\ (Go.len (numbered 5) <= 9 -> out ≡ₚ numbered 5)
  | Done (Err _, _) => False
  | Panic => False
  | OutOfFuel => True
  end.
Proof.
  refine (proj1 (proj2 (filterPodsByMode_fixed (numbered 5) "9" counting _ _)
                   9 _ _) 5%nat).
  - discriminate.
  - rewrite MaxInt_eq. unfold Go.len. cbn [numbered length map seq]. lia.
  - reflexivity.
  - lia.
Defined.




(** X6: in the mode [OnePodMode], on a list of pods that is not empty,
    [filterPodsByMode] takes one draw and returns the one pod at the drawn
    position; it neither fails nor panics, whatever the value. *)
Theorem filterPodsByMode_one pods value r fuel :
  pods <> [] ->
  exists pod,
    pods !! Z.to_nat (src r (pos r) mod Go.len pods) = Some pod
    /\ pod ∈ pods
    /\ filterPodsByMode pods OnePodMode value r fuel =
       Done (Ok [pod], mkRand (src r) (S (pos r))).
Proof.
  intros Hne. pose proof (len_pos_nonempty pods Hne) as Hpos.
  destruct (Intn_pos (Go.len pods) r Hpos) as [HI Hq].
  destruct (pods !! Z.to_nat (src r (pos r) mod Go.len pods)) as [pod |] eqn:Hlook.
  - exists pod. split; [reflexivity |].
    split; [now apply list_elem_of_lookup_2 in Hlook |].
    unfold filterPodsByMode. rewrite (len_eqb_nonempty pods Hne).
    cbn [String.eqb OnePodMode Ascii.eqb Bool.eqb]. now rewrite HI, Hlook.
  - exfalso. apply lookup_ge_None in Hlook. unfold Go.len in *. lia.
Qed.

Lemma filterPodsByMode_one_witness :
  exists pod,
    numbered 4 !! Z.to_nat (src (replay [6]) (pos (replay [6])) mod Go.len (numbered 4))
    = Some pod
    /\ pod ∈ numbered 4
    /\ filterPodsByMode (numbered 4) OnePodMode "" (replay [6]) 0 =
       Done (Ok [pod], mkRand (src (replay [6])) (S (pos (replay [6])))).
Proof.
  apply (filterPodsByMode_one (numbered 4) "" (replay [6]) 0). discriminate.
Defined.

(** Whatever the mode: no panic, an error leaves the source where it was, and
    the pods returned are taken from distinct positions of the list. *)
Lemma filterPodsByMode_sub pods mode value r fuel :
  Go.len pods <= float_exact_len ->
  match filterPodsByMode pods mode value r fuel with
  | Done (Ok out, _) => pods <> [] /\ out ⊆+ pods
  | Done (Err _, r') => r' = r
  | Panic => False
  | OutOfFuel => True
  end.
Proof.
  intros Hlen.
  assert (Hmax : Go.len pods <= Go.MaxInt).
  { rewrite MaxInt_eq. unfold float_exact_len in Hlen. lia. }
  pose proof (len_nonneg pods) as H0.
  destruct pods as [| p0 rest] eqn:Epods; [reflexivity |].
  rewrite <- Epods in *.
  assert (Hne : pods <> []) by (rewrite Epods; discriminate).
  pose proof (len_pos_nonempty pods Hne) as Hpos.
  assert (Hcounted : forall num r1,
    0 <= num <= Go.len pods ->
    match
      bind (getFixedSubListFromPodList pods num r1 fuel)
        (fun pr => Done (@Ok (list Pod) (fst pr), snd pr))
    with
    | Done (Ok out, _) => pods <> [] /\ out ⊆+ pods
    | Done (Err _, r') => r' = r
    | Panic => False
    | OutOfFuel => True
    end).
  { intros num r1 Hnum.
    pose proof (counted_sample_sound pods num r1 fuel Hmax Hnum) as Hs.
    destruct (bind _ _) as [[[out | e] r2] | |]; try exact Hs; [| contradiction].
    split; [exact Hne | apply Hs]. }
  unfold filterPodsByMode. rewrite (len_eqb_nonempty pods Hne).
  destruct (String.eqb mode OnePodMode).
  { destruct (Intn_pos (Go.len pods) r Hpos) as [-> Hq].
    destruct (pods !! _) as [pod |] eqn:Hlook.
    - split; [exact Hne |].
      apply singleton_submseteq_l. now apply list_elem_of_lookup_2 in Hlook.
    - apply lookup_ge_None in Hlook. unfold Go.len in *. lia. }
  destruct (String.eqb mode AllPodMode); [split; [exact Hne | reflexivity] |].
  destruct (String.eqb mode FixedPodMode).
  { destruct (strconv.Atoi value) as [n |]; [| reflexivity]. cbv zeta.
    destruct (Z.leb_spec (if Go.len pods <? n then Go.len pods else n) 0);
      [reflexivity |].
    apply Hcounted. destruct (Z.ltb_spec (Go.len pods) n); lia. }
  destruct (String.eqb mode FixedPercentPodMode).
  { destruct (strconv.Atoi value) as [p |]; [| reflexivity].
    destruct (Z.eqb_spec p 0); [reflexivity |].
    destruct (Z.ltb_spec p 0); [reflexivity |].
    destruct (Z.ltb_spec 100 p); [reflexivity |]. cbn [orb].
    apply Hcounted, percent_of_bounds0; lia. }
  destruct (String.eqb mode RandomMaxPercentPodMode); [| reflexivity].
  destruct (strconv.Atoi value) as [p |]; [| reflexivity].
  destruct (Z.eqb_spec p 0); [reflexivity |].
  destruct (Z.ltb_spec p 0); [reflexivity |].
  destruct (Z.ltb_spec 100 p); [reflexivity |]. cbn [orb].
  destruct (Intn_pos (p + 1) r) as [-> Hq]; [lia |].
  apply Hcounted, percent_of_bounds0; lia.
Qed.

(** X7: for every mode, known or not, and every value, [filterPodsByMode]
    does not panic; when it fails it has drawn nothing; the pods it returns
    are pods of the list taken from distinct positions.  The mode
    [AllPodMode] returns the list as it is, and a mode that is none of the
    five constants fails with the unsupported-mode error. *)
Theorem filterPodsByMode_any_mode pods mode value r fuel :
  Go.len pods <= float_exact_len ->
  match filterPodsByMode pods mode value r fuel with
  | Done (Ok out, _) => pods <> [] /\ out ⊆+ pods
  | Done (Err _, r') => r' = r
  | Panic => False
  | OutOfFuel => True
  end
  /\ (pods <> [] -> mode = AllPodMode ->
      filterPodsByMode pods mode value r fuel = Done (Ok pods, r))
  /\ (pods <> [] ->
      mode <> OnePodMode -> mode <> AllPodMode -> mode <> FixedPodMode ->
      mode <> FixedPercentPodMode -> mode <> RandomMaxPercentPodMode ->
      filterPodsByMode pods mode value r fuel =
      Done (Err (ErrModeNotSupported mode), r)).
Proof.
  intros Hlen. split; [now apply filterPodsByMode_sub | split].
  - intros Hne ->. unfold filterPodsByMode.
    now rewrite (len_eqb_nonempty pods Hne).
  - intros Hne H1 H2 H3 H4 H5. unfold filterPodsByMode.
    rewrite (len_eqb_nonempty pods Hne).
    apply String.eqb_neq in H1, H2, H3, H4, H5.
    now rewrite H1, H2, H3, H4, H5.
Qed.

Lemma filterPodsByMode_any_mode_witness :
  filterPodsByMode (numbered 2) "One" "1" counting 0 =
  Done (Err (ErrModeNotSupported "One"), counting).
Proof.
  apply (filterPodsByMode_any_mode (numbered 2) "One" "1" counting 0);
    [unfold float_exact_len, Go.len; cbn [numbered length map seq]; lia
    | discriminate | discriminate | discriminate | discriminate | discriminate
    | discriminate].
Defined.

(** ** SelectAndFilterPods *)

(** X8: with no mock point set, [SelectAndFilterPods] does not panic; the
    pods it returns are pods that [SelectPods] returned, taken from distinct
    positions of that list; an error is the error of [SelectPods], or "no
    pod is selected" when [SelectPods] returned the empty list, or the error
    of the sampler on the list that [SelectPods] returned. *)
Theorem SelectAndFilterPods_selected MatchString Parse LabelString mock cfg c
    selector mode value r fuel :
  MockSelectAndFilterPods mock = None ->
  MockSelectedAndFilterPodsError mock = None ->
  (forall pods,
     SelectPods MatchString Parse LabelString cfg c selector = Ok pods ->
     Go.len pods <= float_exact_len) ->
  match
    SelectAndFilterPods MatchString Parse LabelString mock cfg c selector
      mode value r fuel
  with
  | Done (Ok out, _) =>
      exists pods,
        SelectPods MatchString Parse LabelString cfg c selector = Ok pods
        /\ pods <> [] /\ out ⊆+ pods
  | Done (Err e, r') =>
      r' = r
      /\ (SelectPods MatchString Parse LabelString cfg c selector = Err e
          \/ (SelectPods MatchString Parse LabelString cfg c selector = Ok []
              /\ e = ErrNoPodSelected)
          \/ (exists pods,
                SelectPods MatchString Parse LabelString cfg c selector = Ok pods
                /\ pods <> []
                /\ filterPodsByMode pods mode value r fuel = Done (Err e, r)))
  | Panic => False
  | OutOfFuel => True
  end.
Proof.
  intros Hm1 Hm2 Hsize. unfold SelectAndFilterPods. rewrite Hm1, Hm2.
  destruct (SelectPods MatchString Parse LabelString cfg c selector)
    as [pods | e] eqn:Hsel; [| split; [reflexivity | now left]].
  destruct (Z.eqb_spec (Go.len pods) 0) as [Hz | Hnz].
  { split; [reflexivity |]. right. left.
    destruct pods; [now split |]. unfold Go.len in Hz. cbn [length] in Hz. lia. }
  assert (Hne : pods <> []).
  { intros ->. apply Hnz. reflexivity. }
  pose proof (filterPodsByMode_sub pods mode value r fuel (Hsize pods eq_refl))
    as Hsub.
  destruct (filterPodsByMode pods mode value r fuel) as [[[out | e] r'] | |]
    eqn:Hrun; cbn [bind fst snd]; try exact Hsub.
  - exists pods. split; [reflexivity | exact Hsub].
  - subst r'. split; [reflexivity |]. right. right.
    exists pods. split; [reflexivity | split; [exact Hne | exact Hrun]].
Qed.

Lemma SelectAndFilterPods_selected_witness :
  match
    SelectAndFilterPods literal_MatchString token_Parse key_LabelString
      (mkMockPoints None None) (mkControllerCfg "" "")
      (cluster (fun _ _ => true) (numbered 3) [])
      (mkSelectorSpec ∅ ∅ ∅ [] ∅ [] ∅ []) FixedPodMode "2" counting 3
  with
  | Done (Ok out, _) =>
      exists pods,
        SelectPods literal_MatchString token_Parse key_LabelString
          (mkControllerCfg "" "") (cluster (fun _ _ => true) (numbered 3) [])
          (mkSelectorSpec ∅ ∅ ∅ [] ∅ [] ∅ []) = Ok pods
        /\ pods <> [] /\ out ⊆+ pods
  | Done (Err e, r') =>
      r' = counting
      /\ (SelectPods literal_MatchString token_Parse key_LabelString
            (mkControllerCfg "" "") (cluster (fun _ _ => true) (numbered 3) [])
            (mkSelectorSpec ∅ ∅ ∅ [] ∅ [] ∅ []) = Err e
          \/ (SelectPods literal_MatchString token_Parse key_LabelString
                (mkControllerCfg "" "")
                (cluster (fun _ _ => true) (numbered 3) [])
                (mkSelectorSpec ∅ ∅ ∅ [] ∅ [] ∅ []) = Ok []
              /\ e = ErrNoPodSelected)
          \/ (exists pods,
                SelectPods literal_MatchString token_Parse key_LabelString
                  (mkControllerCfg "" "")
                  (cluster (fun _ _ => true) (numbered 3) [])
                  (mkSelectorSpec ∅ ∅ ∅ [] ∅ [] ∅ []) = Ok pods
                /\ pods <> []
                /\ filterPodsByMode pods FixedPodMode "2" counting 3 =
                   Done (Err e, counting)))
  | Panic => False
  | OutOfFuel => True
  end.
Proof.
  apply (SelectAndFilterPods_selected literal_MatchString token_Parse
           key_LabelString (mkMockPoints None None) (mkControllerCfg "" "")
           (cluster (fun _ _ => true) (numbered 3) [])
           (mkSelectorSpec ∅ ∅ ∅ [] ∅ [] ∅ []) FixedPodMode "2" counting 3);
    [reflexivity | reflexivity |].
  intros pods Hsel. vm_compute in Hsel. injection Hsel as <-.
  unfold float_exact_len, Go.len. cbn [length]. lia.
Defined.

(** ** The node filter, by membership *)

Lemma hosts_hosted pod nodes :
  (0 < hosts pod nodes)%nat <-> hosted nodes pod = true.
Proof.
  unfold hosts, hosted.
  induction nodes as [| node rest IH]; cbn [List.filter existsb length].
  - split; [lia | discriminate].
  - destruct (String.eqb (NodeName pod) (Node_Name node)); cbn [length orb].
    + split; [reflexivity | lia].
    + exact IH.
Qed.

Lemma hosts_distinct_names pod nodes :
  NoDup (map Node_Name nodes) ->
  hosts pod nodes = if hosted nodes pod then 1%nat else 0%nat.
Proof.
  unfold hosts, hosted.
  induction nodes as [| node rest IH]; intros Hnd; [reflexivity |].
  cbn [map] in Hnd. apply NoDup_cons in Hnd as [Hout Hrest].
  cbn [List.filter existsb].
  destruct (String.eqb_spec (NodeName pod) (Node_Name node)) as [Heq | Hne];
    cbn [orb length]; [| now apply IH].
  assert (Hnone : List.filter
                    (fun n => String.eqb (NodeName pod) (Node_Name n)) rest = []).
  { clear IH Hrest. induction rest as [| n l IHl]; [reflexivity |].
    cbn [map] in Hout. apply not_elem_of_cons in Hout as [Hn Hl].
    cbn [List.filter].
    destruct (String.eqb_spec (NodeName pod) (Node_Name n)) as [E | _];
      [congruence | now apply IHl]. }
  now rewrite Hnone.
Qed.

Lemma filter_sublist {A} (f : A -> bool) l : sublist (List.filter f l) l.
Proof.
  induction l as [| x l IH]; [constructor |]. cbn [List.filter].
  destruct (f x); [now apply sublist_skip | now apply sublist_cons].
Qed.

Lemma filterPodByNode_elem pods nodes pod :
  pod ∈ filterPodByNode pods nodes <-> pod ∈ pods /\ hosted nodes pod = true.
Proof.
  rewrite filterPodByNode_flat_map, list_elem_of_In, in_flat_map. split.
  - intros (p & Hp & Hin). apply list_elem_of_In, elem_of_replicate in Hin.
    destruct Hin as [-> Hk]. split; [now apply list_elem_of_In |].
    apply hosts_hosted. lia.
  - intros [Hp Hh]. exists pod. split; [now apply list_elem_of_In |].
    apply list_elem_of_In, elem_of_replicate. split; [reflexivity |].
    apply hosts_hosted in Hh. lia.
Qed.

Lemma filterPodByNode_elem_node pods nodes pod :
  pod ∈ filterPodByNode pods nodes <->
  pod ∈ pods /\ exists node, node ∈ nodes /\ Node_Name node = NodeName pod.
Proof.
  rewrite filterPodByNode_elem. unfold hosted.
  rewrite existsb_exists. split.
  - intros [Hp (node & Hin & Heq)]. split; [exact Hp |].
    exists node. split; [now apply list_elem_of_In |].
    symmetry. now apply String.eqb_eq.
  - intros [Hp (node & Hin & Heq)]. split; [exact Hp |].
    exists node. split; [now apply list_elem_of_In |].
    apply String.eqb_eq. now symmetry.
Qed.

(** X9: a pod is in the output of [filterPodByNode] exactly when it is in
    the input and some node of the list carries the name of its node; an
    empty node list gives the empty output; and when the names of the nodes
    are pairwise distinct the output is the input filtered, in order and
    without repetition of a position. *)
Theorem filterPodByNode_members pods nodes :
  (forall pod,
     pod ∈ filterPodByNode pods nodes <->
     pod ∈ pods /\ exists node, node ∈ nodes /\ Node_Name node = NodeName pod)
  /\ filterPodByNode pods [] = []
  /\ (NoDup (map Node_Name nodes) ->
      filterPodByNode pods nodes = List.filter (hosted nodes) pods
      /\ sublist (filterPodByNode pods nodes) pods).
Proof.
  split; [| split].
  - intros pod. apply filterPodByNode_elem_node.
  - reflexivity.
  - intros Hnd.
    assert (Heq : filterPodByNode pods nodes = List.filter (hosted nodes) pods).
    { rewrite filterPodByNode_flat_map.
      induction pods as [| pod rest IH]; [reflexivity |].
      cbn [flat_map List.filter]. rewrite IH, (hosts_distinct_names pod nodes Hnd).
      now destruct (hosted nodes pod). }
    split; [exact Heq |]. rewrite Heq. apply filter_sublist.
Qed.

Lemma filterPodByNode_members_witness :
  let pod name node := mkPod "default" name ∅ ∅ "Running" node in
  let nodes := [mkNode "n1" ∅; mkNode "n2" ∅] in
  filterPodByNode [pod "a" "n2"; pod "b" "n3"; pod "c" "n1"] nodes =
  List.filter (hosted nodes) [pod "a" "n2"; pod "b" "n3"; pod "c" "n1"]
  /\ sublist (filterPodByNode [pod "a" "n2"; pod "b" "n3"; pod "c" "n1"] nodes)
       [pod "a" "n2"; pod "b" "n3"; pod "c" "n1"].
Proof.
  intros pod nodes.
  apply (filterPodByNode_members [pod "a" "n2"; pod "b" "n3"; pod "c" "n1"] nodes).
  cbn [nodes map Node_Name]. apply NoDup_cons. split.
  - intros H. apply list_elem_of_singleton in H. discriminate H.
  - apply NoDup_singleton.
Defined.

(** ** The namespace policy *)

(** X10: [filterByNamespaces] keeps, in order, the pods whose namespace
    [IsAllowedNamespaces] allows.  With neither pattern set it returns its
    input; with the allow pattern set the ignore pattern has no say; and a
    pattern that does not compile (the one that is consulted) lets no pod
    through. *)
Theorem filterByNamespaces_policy MatchString cfg pods :
  filterByNamespaces MatchString cfg pods =
    List.filter (fun pod => IsAllowedNamespaces MatchString cfg (Namespace pod)) pods
  /\ sublist (filterByNamespaces MatchString cfg pods) pods
  /\ (AllowedNamespaces cfg = EmptyString -> IgnoredNamespaces cfg = EmptyString ->
      filterByNamespaces MatchString cfg pods = pods)
  /\ (AllowedNamespaces cfg <> EmptyString ->
      forall ignored,
        filterByNamespaces MatchString
          (mkControllerCfg (AllowedNamespaces cfg) ignored) pods =
        filterByNamespaces MatchString cfg pods)
  /\ (AllowedNamespaces cfg <> EmptyString ->
      (forall ns, MatchString (AllowedNamespaces cfg) ns = None) ->
      filterByNamespaces MatchString cfg pods = [])
  /\ (AllowedNamespaces cfg = EmptyString ->
      IgnoredNamespaces cfg <> EmptyString ->
      (forall ns, MatchString (IgnoredNamespaces cfg) ns = None) ->
      filterByNamespaces MatchString cfg pods = []).
Proof.
  assert (Hfilter : forall cfg',
    filterByNamespaces MatchString cfg' pods =
    List.filter (fun pod => IsAllowedNamespaces MatchString cfg' (Namespace pod)) pods).
  { intros cfg'. unfold filterByNamespaces. now rewrite namespaces_loop_filter. }
  assert (Hnone : forall f : Pod -> bool,
    (forall pod, f pod = false) -> List.filter f pods = []).
  { intros f Hf. clear Hfilter.
    induction pods as [| pod rest IH]; [reflexivity |].
    cbn [List.filter]. now rewrite Hf. }
  split; [apply Hfilter |]. split; [rewrite Hfilter; apply filter_sublist |].
  split; [| split; [| split]].
  - intros Ha Hi. rewrite Hfilter. rewrite <- (filter_true pods) at 2.
    apply filter_ext. intros pod. unfold IsAllowedNamespaces. now rewrite Ha, Hi.
  - intros Ha ignored. rewrite !Hfilter. apply filter_ext. intros pod.
    unfold IsAllowedNamespaces. cbn [AllowedNamespaces].
    apply String.eqb_neq in Ha. now rewrite Ha.
  - intros Ha Hbad. rewrite Hfilter. apply Hnone. intros pod.
    unfold IsAllowedNamespaces. apply String.eqb_neq in Ha.
    now rewrite Ha, Hbad.
  - intros Ha Hi Hbad. rewrite Hfilter. apply Hnone. intros pod.
    unfold IsAllowedNamespaces. apply String.eqb_neq in Hi.
    now rewrite Ha, Hi, Hbad.
Qed.

Lemma filterByNamespaces_policy_witness :
  let pod ns := mkPod ns "p" ∅ ∅ "Running" "" in
  filterByNamespaces literal_MatchString (mkControllerCfg "app" "web")
    [pod "app-web"; pod "web"; pod "app-db"] =
  filterByNamespaces literal_MatchString (mkControllerCfg "app" "app")
    [pod "app-web"; pod "web"; pod "app-db"].
Proof.
  intros pod.
  apply (proj1 (proj2 (proj2 (proj2
           (filterByNamespaces_policy literal_MatchString
              (mkControllerCfg "app" "app")
              [pod "app-web"; pod "web"; pod "app-db"]))))).
  discriminate.
Defined.

(** ** The bulk branch of SelectPods, with the node stage *)

Lemma SelectPods_unlisted MS Parse LS cfg c selector :
  Pods selector = ∅ ->
  SelectPods MS Parse LS cfg c selector =
  match ListPods c (bulk_options selector) with
  | inl e => Err (ErrClient e)
  | inr items =>
      let* pods := node_stage c selector items in
      requirement_stages Parse LS selector
        (List.filter (fun pod => IsAllowedNamespaces MS cfg (Namespace pod)) pods)
  end.
Proof.
  intros Hp. unfold SelectPods, bulk_options, node_stage.
  rewrite Hp, map_size_empty. change (0 <? 0)%nat with false. cbv iota.
  destruct (ListPods c _) as [e | items]; [reflexivity |].
  cbn [app].
  destruct ((0 <? Go.len (Nodes selector))
            || (0 <? size (NodeSelectors selector))%nat).
  - destruct (0 <? size (NodeSelectors selector))%nat.
    + destruct (ListNodes c _) as [e | nodeItems]; [reflexivity |].
      unfold filterByNamespaces. rewrite namespaces_loop_filter. reflexivity.
    + unfold filterByNamespaces. rewrite namespaces_loop_filter. reflexivity.
  - unfold filterByNamespaces. rewrite namespaces_loop_filter. reflexivity.
Qed.





(** X12: with an empty [Pods] map, no node input, and the three requirement
    expressions parsing to the empty selector, [SelectPods] returns the
    answer to the bulk query less the pods of the namespaces that the
    namespace policy refuses, and the error of the query when it fails. *)
Theorem SelectPods_unconstrained MatchString Parse LabelString cfg c selector :
  Pods selector = ∅ -> Nodes selector = [] -> NodeSelectors selector = ∅ ->
  Parse (String.concat "," (Namespaces selector)) = Some [] ->
  Parse (LabelString (AnnotationSelectors selector)) = Some [] ->
  Parse (String.concat "," (PodPhaseSelectors selector)) = Some [] ->
  SelectPods MatchString Parse LabelString cfg c selector =
  match ListPods c (bulk_options selector) with
  | inl e => Err (ErrClient e)
  | inr items =>
      Ok (List.filter
            (fun pod => IsAllowedNamespaces MatchString cfg (Namespace pod))
            items)
  end.
Proof.
  intros Hp Hn Hs Hns Hann Hph.
  rewrite SelectPods_bulk by assumption. fold (bulk_options selector).
  destruct (ListPods c (bulk_options selector)) as [e | items]; [reflexivity |].
  unfold requirement_stages, parseSelector. now rewrite Hns, Hann, Hph.
Qed.

Lemma SelectPods_unconstrained_witness :
  let pods := [mkPod "default" "a" ∅ ∅ "Running" "";
               mkPod "kube-system" "dns" ∅ ∅ "Pending" ""] in
  SelectPods literal_MatchString token_Parse key_LabelString
    (mkControllerCfg "" "kube") (cluster (fun _ _ => true) pods [])
    (mkSelectorSpec ∅ ∅ ∅ [] ∅ [] ∅ []) =
  Ok [mkPod "default" "a" ∅ ∅ "Running" ""].
Proof.
  intros pods.
  refine (eq_trans
            (SelectPods_unconstrained literal_MatchString token_Parse
               key_LabelString (mkControllerCfg "" "kube")
               (cluster (fun _ _ => true) pods [])
               (mkSelectorSpec ∅ ∅ ∅ [] ∅ [] ∅ []) _ _ _ _ _ _) _);
    reflexivity.
Defined.

(** ** The node inputs *)

Lemma nodes_loop_forgiving c names : forall nodes,
  nodes_loop (forgiving c) names nodes = nodes_loop c names nodes.
Proof.
  induction names as [| name rest IH]; intros nodes; cbn [nodes_loop];
    [reflexivity |].
  cbn [forgiving GetNode]. destruct (GetNode c name); apply IH.
Qed.

(** X13: [SelectPods] passes over every error of the [Get] of a named node:
    its result is the same when such a [Get] fails as when the node is not
    found. *)
Theorem SelectPods_node_errors_ignored MatchString Parse LabelString cfg c
    selector :
  SelectPods MatchString Parse LabelString cfg (forgiving c) selector =
  SelectPods MatchString Parse LabelString cfg c selector.
Proof.
  unfold SelectPods. rewrite nodes_loop_forgiving.
  rewrite (entries_loop_ext c (forgiving c)) by reflexivity.
  reflexivity.
Qed.

Lemma nodes_loop_none c names : forall nodes,
  (forall name, name ∈ names -> forall node, GetNode c name <> Found node) ->
  nodes_loop c names nodes = nodes.
Proof.
  induction names as [| name rest IH]; intros nodes Hnone; cbn [nodes_loop];
    [reflexivity |].
  assert (Hrest : forall n, n ∈ rest -> forall node, GetNode c n <> Found node).
  { intros n Hn. apply Hnone. now apply list_elem_of_further. }
  destruct (GetNode c name) as [node | | e] eqn:Hget; [| now apply IH ..].
  exfalso. exact (Hnone name (list_elem_of_here _ _) node Hget).
Qed.

(** X14: when the selector names nodes, has no node label query, and no
    named node is there, [SelectPods] (in its bulk branch) returns no pod:
    the empty list, or the error of the bulk query or of a requirement
    stage. *)
Theorem SelectPods_no_node_found MatchString Parse LabelString cfg c selector
    out :
  Pods selector = ∅ -> Nodes selector <> [] -> NodeSelectors selector = ∅ ->
  (forall name, name ∈ Nodes selector ->
     forall node, GetNode c name <> Found node) ->
  SelectPods MatchString Parse LabelString cfg c selector = Ok out ->
  out = [].
Proof.
  intros Hp Hn Hs Hnone Hsel. rewrite SelectPods_unlisted in Hsel by exact Hp.
  destruct (ListPods c (bulk_options selector)) as [e | items]; [discriminate |].
  assert (Hstage : node_stage c selector items = Ok []).
  { unfold node_stage. rewrite Hs, map_size_empty.
    change (0 <? 0)%nat with false.
    assert (Hlen : (0 <? Go.len (Nodes selector)) = true).
    { apply Z.ltb_lt. now apply len_pos_nonempty. }
    rewrite Hlen. cbn [orb]. now rewrite nodes_loop_none. }
  rewrite Hstage in Hsel. cbn [List.filter] in Hsel.
  destruct (requirement_stages_shape Parse LabelString selector)
    as [(e & _ & Hshape) | (test & Hshape)]; rewrite Hshape in Hsel;
    [discriminate |].
  now injection Hsel as <-.
Qed.

Lemma SelectPods_no_node_found_witness :
  SelectPods literal_MatchString token_Parse key_LabelString
    (mkControllerCfg "" "")
    (cluster (fun _ _ => true) (numbered 3) [mkNode "n1" ∅])
    (mkSelectorSpec ∅ ∅ ∅ ["n7"] ∅ [] ∅ []) = Ok [].
Proof.
  assert (H : exists out,
    SelectPods literal_MatchString token_Parse key_LabelString
      (mkControllerCfg "" "")
      (cluster (fun _ _ => true) (numbered 3) [mkNode "n1" ∅])
      (mkSelectorSpec ∅ ∅ ∅ ["n7"] ∅ [] ∅ []) = Ok out).
  { eexists. reflexivity. }
  destruct H as [out Hout]. rewrite Hout. f_equal.
  apply (SelectPods_no_node_found literal_MatchString token_Parse
           key_LabelString (mkControllerCfg "" "")
           (cluster (fun _ _ => true) (numbered 3) [mkNode "n1" ∅])
           (mkSelectorSpec ∅ ∅ ∅ ["n7"] ∅ [] ∅ []) out);
    [reflexivity | discriminate | reflexivity | | exact Hout].
  intros name Hname node. apply list_elem_of_singleton in Hname. subst name.
  discriminate.
Defined.

(** ** CheckPodMeetSelector, part by part *)

Lemma meet_names_loop_listed pod names : forall meet,
  (meet = true \/ Name pod ∈ names) -> meet_names_loop pod names meet = true.
Proof.
  induction names as [| name rest IH]; intros meet H; cbn [meet_names_loop].
  - destruct H as [-> | H]; [reflexivity | inversion H].
  - apply IH. destruct (String.eqb_spec (Name pod) name) as [Heq | Hne];
      [now left |].
    destruct H as [H | H]; [now left |].
    apply elem_of_cons in H as [H | H]; [contradiction | now right].
Qed.

Lemma meet_entries_loop_absent pod entries : forall meet,
  Namespace pod ∉ entries.*1 ->
  meet_entries_loop pod entries meet = Some meet.
Proof.
  induction entries as [| [ns names] rest IH]; intros meet Hout;
    cbn [meet_entries_loop]; [reflexivity |].
  cbn [fmap list_fmap fst] in Hout. apply not_elem_of_cons in Hout as [Hne Hrest].
  destruct (String.eqb_spec (Namespace pod) ns); [contradiction |].
  cbn [negb]. now apply IH.
Qed.

Lemma meet_entries_loop_listed pod names entries : forall meet,
  NoDup entries.*1 -> (Namespace pod, names) ∈ entries -> Name pod ∈ names ->
  meet_entries_loop pod entries meet = Some true.
Proof.
  induction entries as [| [ns names'] rest IH]; intros meet Hnd Hin Hname;
    [inversion Hin |].
  cbn [fmap list_fmap fst] in Hnd. apply NoDup_cons in Hnd as [Hout Hnd].
  cbn [meet_entries_loop].
  apply elem_of_cons in Hin as [Heq | Hin].
  - injection Heq as <- <-.
    rewrite String.eqb_refl. cbn [negb].
    rewrite meet_names_loop_listed by now right. cbn [negb].
    now apply meet_entries_loop_absent.
  - destruct (String.eqb_spec (Namespace pod) ns) as [<- | Hne].
    + exfalso. apply Hout.
      apply (list_elem_of_fmap_2 fst) in Hin. exact Hin.
    + cbn [negb]. now apply (IH meet).
Qed.

(** The explicit part of [CheckPodMeetSelector], as it stands in the
    function. *)
Lemma explicit_part_passed Parse LabelString pod selector meet :
  (if (0 <? size (Pods selector))%nat
   then meet_entries_loop pod (map_to_list (Pods selector)) false
   else Some false) = Some meet ->
  CheckPodMeetSelector Parse LabelString pod selector =
  CheckPodMeetSelector Parse LabelString pod (without_Pods selector).
Proof.
  intros H. unfold CheckPodMeetSelector. rewrite H.
  cbn [without_Pods Pods LabelSelectors Namespaces AnnotationSelectors
       PodPhaseSelectors].
  rewrite map_size_empty. reflexivity.
Qed.

Lemma explicit_part_listed pod selector names :
  Pods selector !! Namespace pod = Some names -> Name pod ∈ names ->
  (if (0 <? size (Pods selector))%nat
   then meet_entries_loop pod (map_to_list (Pods selector)) false
   else Some false) = Some true.
Proof.
  intros Hlook Hname.
  assert (Hne : Pods selector <> ∅).
  { intros H. rewrite H, lookup_empty in Hlook. discriminate. }
  apply size_pos_nonempty in Hne. rewrite Hne.
  apply (meet_entries_loop_listed pod names);
    [apply NoDup_fst_map_to_list | now apply elem_of_map_to_list | exact Hname].
Qed.

Lemma explicit_part_absent pod selector :
  Pods selector !! Namespace pod = None ->
  (if (0 <? size (Pods selector))%nat
   then meet_entries_loop pod (map_to_list (Pods selector)) false
   else Some false) = Some false.
Proof.
  intros Hlook.
  destruct (0 <? size (Pods selector))%nat; [| reflexivity].
  apply meet_entries_loop_absent.
  intros Hin. apply list_elem_of_fmap in Hin as ([ns names] & Heq & Hin).
  cbn [fst] in Heq. subst ns. apply elem_of_map_to_list in Hin. congruence.
Qed.

Lemma explicit_part_refused pod selector names :
  Pods selector !! Namespace pod = Some names -> Name pod ∉ names ->
  (if (0 <? size (Pods selector))%nat
   then meet_entries_loop pod (map_to_list (Pods selector)) false
   else Some false) = None.
Proof.
  intros Hlook Hout.
  assert (Hne : Pods selector <> ∅).
  { intros H. rewrite H, lookup_empty in Hlook. discriminate. }
  apply size_pos_nonempty in Hne. rewrite Hne.
  apply (meet_entries_loop_not_listed pod names); [| | exact Hout].
  - now apply elem_of_map_to_list.
  - intros names' Hin. apply elem_of_map_to_list in Hin. congruence.
Qed.

(** X15: the explicit part of [CheckPodMeetSelector].  A pod whose namespace
    is a key of the [Pods] map is refused when its name is not listed under
    that key; when its name is listed, and also when its namespace is no key
    of the map, the answer is the one for the selector without its [Pods]
    map. *)
Theorem CheckPodMeetSelector_explicit Parse LabelString pod selector :
  (forall names,
     Pods selector !! Namespace pod = Some names -> Name pod ∉ names ->
     CheckPodMeetSelector Parse LabelString pod selector = Ok false)
  /\ (forall names,
        Pods selector !! Namespace pod = Some names -> Name pod ∈ names ->
        CheckPodMeetSelector Parse LabelString pod selector =
        CheckPodMeetSelector Parse LabelString pod (without_Pods selector))
  /\ (Pods selector !! Namespace pod = None ->
      CheckPodMeetSelector Parse LabelString pod selector =
      CheckPodMeetSelector Parse LabelString pod (without_Pods selector)).
Proof.
  split; [| split].
  - intros names Hlook Hout. unfold CheckPodMeetSelector.
    now rewrite (explicit_part_refused pod selector names Hlook Hout).
  - intros names Hlook Hname.
    apply (explicit_part_passed Parse LabelString pod selector true).
    now apply (explicit_part_listed pod selector names).
  - intros Hlook.
    apply (explicit_part_passed Parse LabelString pod selector false).
    now apply explicit_part_absent.
Qed.

Lemma CheckPodMeetSelector_explicit_witness :
  let pod := mkPod "default" "a" ∅ ∅ "Running" "" in
  let selector :=
    mkSelectorSpec {[ "default" := ["b"; "a"] ]} ∅ ∅ [] ∅ ["default"] ∅ [] in
  CheckPodMeetSelector token_Parse key_LabelString pod selector =
  CheckPodMeetSelector token_Parse key_LabelString pod (without_Pods selector).
Proof.
  intros pod selector.
  apply (proj1 (proj2 (CheckPodMeetSelector_explicit token_Parse key_LabelString
                         pod selector)) ["b"; "a"]).
  - reflexivity.
  - apply list_elem_of_further, list_elem_of_here.
Defined.

Lemma SelectorFromSet_matches (ls set : gmap string string) :
  labels.SelectorMatches (labels.SelectorFromSet ls) set = true <-> ls ⊆ set.
Proof.
  unfold labels.SelectorMatches, labels.SelectorFromSet.
  rewrite forallb_forall, map_subseteq_spec.
  assert (Hreq : forall k v,
    labels.Matches (labels.mkRequirement k selection.Equals [v]) set = true
    <-> set !! k = Some v).
  { intros k v. unfold labels.Matches, labels.Has, labels.Get, labels.hasValue.
    cbn [labels.operator labels.key labels.strValues existsb].
    destruct (set !! k) as [w |]; cbn [negb].
    - rewrite orb_false_r, String.eqb_eq. split; congruence.
    - split; discriminate. }
  split.
  - intros Hall k v Hlook. apply Hreq.
    apply (Hall (labels.mkRequirement k selection.Equals [v])).
    apply in_map_iff. exists (k, v). split; [reflexivity |].
    now apply list_elem_of_In, elem_of_map_to_list.
  - intros Hsub r Hin. apply in_map_iff in Hin as ([k v] & <- & Hin).
    apply Hreq, Hsub. now apply elem_of_map_to_list, list_elem_of_In.
Qed.

Lemma requirement_stages_single Parse LS selector pod out :
  requirement_stages Parse LS selector [pod] = Ok out ->
  (0 <? Go.len out) = true -> out = [pod].
Proof.
  destruct (requirement_stages_shape Parse LS selector)
    as [(e & _ & Hshape) | (test & Hshape)]; rewrite Hshape; [discriminate |].
  intros [= <-]. cbn [List.filter]. destruct (test pod); [reflexivity |].
  intros H. vm_compute in H. discriminate H.
Qed.

(** X16: [CheckPodMeetSelector] answers true only for a pod that carries
    every label of [LabelSelectors] with its value and that the namespace,
    annotation and phase requirement stages keep; for a selector with an
    empty [Pods] map the converse holds too. *)
Theorem CheckPodMeetSelector_true Parse LabelString pod selector :
  (CheckPodMeetSelector Parse LabelString pod selector = Ok true ->
   LabelSelectors selector ⊆ Labels pod
   /\ requirement_stages Parse LabelString selector [pod] = Ok [pod])
  /\ (Pods selector = ∅ ->
      LabelSelectors selector ⊆ Labels pod ->
      requirement_stages Parse LabelString selector [pod] = Ok [pod] ->
      CheckPodMeetSelector Parse LabelString pod selector = Ok true).
Proof.
  assert (Hselects :
    selects (if (0 <? size (LabelSelectors selector))%nat
             then Some (labels.SelectorFromSet (LabelSelectors selector))
             else None) (Labels pod) = true
    <-> LabelSelectors selector ⊆ Labels pod).
  { destruct (0 <? size (LabelSelectors selector))%nat eqn:Hsz; cbn [selects].
    - apply SelectorFromSet_matches.
    - split; [intros _ | reflexivity].
      apply Nat.ltb_ge in Hsz.
      assert (Hz : size (LabelSelectors selector) = 0%nat) by lia.
      apply map_size_empty_inv in Hz. rewrite Hz. apply map_empty_subseteq. }
  assert (Hbody : forall sel,
    Pods sel = ∅ ->
    CheckPodMeetSelector Parse LabelString pod sel = Ok true ->
    selects (if (0 <? size (LabelSelectors sel))%nat
             then Some (labels.SelectorFromSet (LabelSelectors sel))
             else None) (Labels pod) = true
    /\ requirement_stages Parse LabelString sel [pod] = Ok [pod]).
  { intros sel Hp. rewrite CheckPodMeetSelector_unlisted by exact Hp.
    set (b := selects _ (Labels pod)). destruct b; cbn [negb]; [| discriminate].
    destruct (requirement_stages Parse LabelString sel [pod]) as [out | e] eqn:Hst;
      [| discriminate].
    destruct (0 <? Go.len out) eqn:Hlen; [| discriminate].
    intros _. split; [reflexivity |]. f_equal.
    now apply (requirement_stages_single Parse LabelString sel pod). }
  split.
  - intros Hcheck.
    assert (Hcheck' : CheckPodMeetSelector Parse LabelString pod
                        (without_Pods selector) = Ok true).
    { destruct (Pods selector !! Namespace pod) as [names |] eqn:Hlook.
      - destruct (decide (Name pod ∈ names)) as [Hin | Hout].
        + rewrite <- (explicit_part_passed Parse LabelString pod selector true);
            [exact Hcheck | now apply (explicit_part_listed pod selector names)].
        + unfold CheckPodMeetSelector in Hcheck.
          rewrite (explicit_part_refused pod selector names Hlook Hout) in Hcheck.
          discriminate.
      - rewrite <- (explicit_part_passed Parse LabelString pod selector false);
          [exact Hcheck | now apply explicit_part_absent]. }
    destruct (Hbody (without_Pods selector) eq_refl Hcheck') as [Hl Hst].
    split; [now apply Hselects | exact Hst].
  - intros Hp Hsub Hst. rewrite CheckPodMeetSelector_unlisted by exact Hp.
    apply Hselects in Hsub. rewrite Hsub. cbn [negb]. now rewrite Hst.
Qed.

Lemma CheckPodMeetSelector_true_witness :
  let pod :=
    mkPod "default" "a" {[ "app" := "web"; "tier" := "front" ]} ∅ "Running" "" in
  let selector :=
    mkSelectorSpec ∅ {[ "app" := "web" ]} ∅ [] ∅ ["default"] ∅ ["!Failed"] in
  CheckPodMeetSelector token_Parse key_LabelString pod selector = Ok true.
Proof.
  intros pod selector.
  apply (proj2 (CheckPodMeetSelector_true token_Parse key_LabelString pod selector)).
  - reflexivity.
  - apply SelectorFromSet_matches. reflexivity.
  - reflexivity.
Defined.

(** ** Order and repetition *)

Lemma requirement_filter_sublist attr pods expr out :
  (if labels.Empty expr then Ok pods
   else
     let* groups := split_loop expr [] [] in
     Ok (requirement_loop attr pods (fst groups) (snd groups) [])) = Ok out ->
  sublist out pods.
Proof.
  destruct (requirement_filter_shape attr expr)
    as [(e & _ & Hshape) | (test & Hshape)]; rewrite Hshape; [discriminate |].
  intros [= <-]. apply filter_sublist.
Qed.

(** X17: the namespace, annotation and phase filters return a sublist of
    their input (the pods kept, in order, none added or repeated), and
    whether the namespace or the phase filter fails, and with what error,
    does not depend on the pods. *)
Theorem requirement_filters_sublist pods expr :
  (forall out, filterByNamespaceSelector pods expr = Ok out -> sublist out pods)
  /\ (forall out, filterByPhaseSelector pods expr = Ok out -> sublist out pods)
  /\ sublist (filterByAnnotations pods expr) pods
  /\ (forall e pods',
        filterByNamespaceSelector pods expr = Err e ->
        filterByNamespaceSelector pods' expr = Err e
        /\ filterByPhaseSelector pods' expr = Err e).
Proof.
  split; [| split; [| split]].
  - intros out. apply requirement_filter_sublist.
  - intros out. apply requirement_filter_sublist.
  - rewrite filterByAnnotations_filter. apply filter_sublist.
  - intros e pods'. unfold filterByNamespaceSelector, filterByPhaseSelector.
    destruct (labels.Empty expr); [discriminate |].
    destruct (split_loop expr [] []) as [groups | e']; [discriminate |].
    intros [= <-]. split; reflexivity.
Qed.

Lemma requirement_filters_sublist_witness :
  let pod ns := mkPod ns "p" ∅ ∅ "Running" "" in
  sublist [pod "a"; pod "c"] [pod "a"; pod "b"; pod "c"].
Proof.
  intros pod.
  apply (proj1 (requirement_filters_sublist [pod "a"; pod "b"; pod "c"]
                  [labels.mkRequirement "b" selection.DoesNotExist []])).
  reflexivity.
Defined.

(** X18: without a node input, what the bulk branch of [SelectPods] returns
    is a sublist of the answer to the bulk query: its pods in their order,
    none twice. *)
Theorem SelectPods_bulk_sublist MatchString Parse LabelString cfg c selector out :
  Pods selector = ∅ -> Nodes selector = [] -> NodeSelectors selector = ∅ ->
  SelectPods MatchString Parse LabelString cfg c selector = Ok out ->
  exists items,
    ListPods c (bulk_options selector) = inr items /\ sublist out items.
Proof.
  intros Hp Hn Hs Hsel. rewrite SelectPods_bulk in Hsel by assumption.
  fold (bulk_options selector) in Hsel.
  destruct (ListPods c (bulk_options selector)) as [e | items]; [discriminate |].
  exists items. split; [reflexivity |].
  destruct (requirement_stages_shape Parse LabelString selector)
    as [(e & _ & Hshape) | (test & Hshape)]; rewrite Hshape in Hsel;
    [discriminate |].
  injection Hsel as <-. rewrite filter_filter. apply filter_sublist.
Qed.

Lemma SelectPods_bulk_sublist_witness :
  let c := cluster (fun _ _ => true) (numbered 3) [] in
  let selector := mkSelectorSpec ∅ ∅ ∅ [] ∅ ["default"] ∅ ["Running"] in
  exists items,
    ListPods c (bulk_options selector) = inr items
    /\ sublist (numbered 3) items.
Proof.
  intros c selector.
  apply (SelectPods_bulk_sublist literal_MatchString token_Parse key_LabelString
           (mkControllerCfg "" "") c selector (numbered 3));
    reflexivity.
Defined.
